(** * OpenGlass: chunk reassembly, capture debounce and the agent pipeline

    A shallow embedding of [sources/app/DeviceView.tsx] ([usePhotos]:
    [onChunk], [takePhoto]) and [sources/agent/Agent.ts] ([clearPhotos],
    [addPhoto], [answer], [#notify]).

    Conventions.
    - A [Uint8Array] is a [list byte].
    - A JavaScript [number] that holds a packet id or a counter is a [Z]
      (or a [nat] for the loop counter of [answer]); the transport builds
      ids as [array[0] + (array[1] << 8)], far below 2^53, where the
      arithmetic of doubles is exact.
    - An [async] function is cut at its [await]s: the code between two
      suspension points is one atomic transition of the event loop, and
      the outcome of an awaited collaborator is an input of the next
      transition. *)

From Stdlib Require Import List ZArith Bool Lia String Ascii Arith.
From Stdlib.Strings Require Import Byte.
From Stdlib Require Import DecimalString.
From Stdlib Require DecimalNat DecimalFacts.
Import ListNotations.

Local Open Scope Z_scope.

Definition bytes := list byte.

(* ================================================================== *)
(** ** DeviceView.tsx: [usePhotos] *)

Module DeviceView.

(** The two variables closed over by [onChunk]. *)
Record Reassembler := mkReassembler {
  previousChunk : Z;
  buffer : bytes
}.

(** What a call of [onChunk] does besides updating its two variables. *)
Inductive Effect :=
| PhotoReceived (photo : bytes)     (* [rotateImage(buffer, '270')], then appended to the photos *)
| InvalidChunk (id : Z) (prev : Z). (* [console.error('Invalid chunk', id, previousChunk)] *)

(** [let previousChunk = -1; let buffer = new Uint8Array(0);] *)
Definition initial : Reassembler := mkReassembler (-1) [].

Definition idle (r : Reassembler) : Prop := previousChunk r = -1.

(** [function onChunk(id: number | null, data: Uint8Array)]. *)
Definition onChunk (id : option Z) (data : bytes) (r : Reassembler)
  : Reassembler * list Effect :=
  if previousChunk r =? -1 then
    match id with
    | None => (r, [])
    | Some i =>
        if i =? 0
        then (mkReassembler 0 (([] : bytes) ++ data), [])
        else (r, [])
    end
  else
    match id with
    | None => (mkReassembler (-1) (buffer r), [PhotoReceived (buffer r)])
    | Some i =>
        if negb (i =? previousChunk r + 1)
        then (mkReassembler (-1) (buffer r), [InvalidChunk i (-1)])
        else (mkReassembler i (buffer r ++ data), [])
    end.

(** One transport notification, as [onChunk] receives it. *)
Definition Chunk : Type := option Z * bytes.

(** The notifications of a stream, handled in delivery order. *)
Fixpoint onChunks (cs : list Chunk) (r : Reassembler)
  : Reassembler * list Effect :=
  match cs with
  | [] => (r, [])
  | (id, data) :: rest =>
      let '(r1, out1) := onChunk id data r in
      let '(r2, out2) := onChunks rest r1 in
      (r2, out1 ++ out2)
  end.

(** The completed images among the effects of a run. *)
Fixpoint images (out : list Effect) : list bytes :=
  match out with
  | [] => []
  | PhotoReceived b :: rest => b :: images rest
  | InvalidChunk _ _ :: rest => images rest
  end.

(** Payloads numbered [k], [k+1], ... in delivery order. *)
Fixpoint numbered (k : Z) (payloads : list bytes) : list Chunk :=
  match payloads with
  | [] => []
  | p :: rest => (Some k, p) :: numbered (k + 1) rest
  end.

(** A chunk that cannot start a transfer: a terminator or a non-zero id. *)
Definition stray (c : Chunk) : bool :=
  match fst c with
  | Some i => negb (i =? 0)
  | None => true
  end.


(* ------------------------------------------------------------------ *)
(** *** The capture trigger ([takePhoto])

    [isCapturing] is React state: [takePhoto] is re-created whenever it
    changes (it is in the dependency list of [useCallback]) and React
    commits the update before the next press is dispatched, so a press
    reads the value written by the latest [setIsCapturing].  Time is a
    clock in milliseconds; [setTimeout(f, 2000)] registers a deadline and
    [f] runs at some moment not earlier than it. *)

Module Capture.

Record Controller := mkController {
  photoControlCharRef : bool;   (* [photoControlCharRef.current] is not null *)
  isCapturing : bool;
  writing : nat;                (* [writeValue] calls not yet settled *)
  now : Z;                      (* the clock, in ms *)
  timers : list Z               (* deadlines of the pending [setIsCapturing(false)] timers *)
}.

Inductive Effect :=
| WriteValue (value : bytes)    (* [photoControlCharRef.current.writeValue(value)] *)
| CommandSent                   (* [console.log('Capture photo command sent')] *)
| SendError                     (* [console.error('Error sending capture command:', error)] *)
| NotAvailableOrCapturing.      (* [console.error('Photo control characteristic not available or already capturing')] *)

Definition initial : Controller := mkController false false 0 0 [].

Definition setIsCapturing (b : bool) (c : Controller) : Controller :=
  mkController (photoControlCharRef c) b (writing c) (now c) (timers c).

(** [takePhoto], up to its [await]. *)
Definition takePhoto (c : Controller) : Controller * list Effect :=
  if photoControlCharRef c && negb (isCapturing c) then
    let c1 := setIsCapturing true c in
    (mkController (photoControlCharRef c1) (isCapturing c1) (S (writing c1))
                  (now c1) (timers c1),
     [WriteValue ["001"%byte]])
  else
    (c, [NotAvailableOrCapturing]).

(** [takePhoto], after the [await]: [ok] tells whether [writeValue]
    resolved or rejected. *)
Definition takePhoto_settled (ok : bool) (c : Controller)
  : Controller * list Effect :=
  let c0 := mkController (photoControlCharRef c) (isCapturing c)
                         (Nat.pred (writing c)) (now c) (timers c) in
  if ok then
    (mkController (photoControlCharRef c0) (isCapturing c0) (writing c0)
                  (now c0) (timers c0 ++ [now c0 + 2000]),
     [CommandSent])
  else
    (setIsCapturing false c0, [SendError]).

(** What the environment can do to the controller. *)
Inductive Input :=
| ControlFound                 (* [photoControlCharRef.current = photoControlCharacteristic] *)
| Press                        (* [takePhoto()] *)
| WriteSettled (ok : bool)     (* the pending [writeValue] resolves or rejects *)
| Elapse (ms : Z)              (* time passes *)
| TimerFires.                  (* the oldest timer runs its callback *)

Definition step (i : Input) (c : Controller)
  : option (Controller * list Effect) :=
  match i with
  | ControlFound =>
      Some (mkController true (isCapturing c) (writing c) (now c) (timers c), [])
  | Press => Some (takePhoto c)
  | WriteSettled ok =>
      match writing c with
      | O => None
      | S _ => Some (takePhoto_settled ok c)
      end
  | Elapse ms =>
      if 0 <=? ms
      then Some (mkController (photoControlCharRef c) (isCapturing c)
                              (writing c) (now c + ms) (timers c), [])
      else None
  | TimerFires =>
      match timers c with
      | deadline :: rest =>
          if deadline <=? now c
          then Some (setIsCapturing false
                       (mkController (photoControlCharRef c) (isCapturing c)
                                     (writing c) (now c) rest), [])
          else None
      | [] => None
      end
  end.

Fixpoint run (inputs : list Input) (c : Controller)
  : option (Controller * list Effect) :=
  match inputs with
  | [] => Some (c, [])
  | i :: rest =>
      match step i c with
      | None => None
      | Some (c1, out1) =>
          match run rest c1 with
          | None => None
          | Some (c2, out2) => Some (c2, out1 ++ out2)
          end
      end
  end.

(** The cooldown of a previous capture has not elapsed: one of its
    timers has a deadline still ahead of the clock. *)
Definition cooling (c : Controller) : bool :=
  existsb (fun deadline => now c <? deadline) (timers c).

(** A capture in flight or cooling down is exactly what [isCapturing] says. *)
Definition consistent (c : Controller) : Prop :=
  (isCapturing c = true /\ (writing c + List.length (timers c) = 1)%nat) \/
  (isCapturing c = false /\ writing c = O /\ timers c = []).

End Capture.

End DeviceView.

(* ================================================================== *)
(** ** utils/lock.ts *)

Module AsyncLock.

Section Lock.

Variable T : Type.

(** Modelled from the spec: the class [AsyncLock] of [utils/lock.ts],
    which the sources at hand only import.  "At most one registered unit
    of work executes at a time; additional requests queue in arrival
    order (FIFO)": a "currently running" flag and a FIFO queue of the
    pending task closures. *)
Record t := mk {
  running : bool;
  queue : list T
}.

(** Modelled from the spec: [new AsyncLock()], nothing running and
    nothing queued. *)
Definition create : t := mk false [].

(** Modelled from the spec: [inLock(task)] registers the unit of work
    behind the requests that arrived before it. *)
Definition inLock (task : T) (l : t) : t :=
  mk (running l) (queue l ++ [task]).

(** Modelled from the spec: the next unit of work starts only when none
    is running, and it is the oldest one queued. *)
Definition start (l : t) : option (T * t) :=
  if running l then None
  else match queue l with
       | [] => None
       | task :: rest => Some (task, mk true rest)
       end.

(** Modelled from the spec: the completion of the running unit of work,
    by success or by failure, frees the lock for the next one. *)
Definition finish (l : t) : t := mk false (queue l).

End Lock.

Arguments running {T} _.
Arguments queue {T} _.
Arguments mk {T} _ _.
Arguments create {T}.
Arguments inLock {T} _ _.
Arguments start {T} _.
Arguments finish {T} _.

End AsyncLock.

(* ================================================================== *)
(** ** agent/Agent.ts *)

Module AgentState.

(** [type AgentState = { lastDescription?: string; answer?: string; loading: boolean }] *)
Record t := mk {
  lastDescription : option string;
  answer : option string;
  loading : bool
}.

Definition set_lastDescription (v : option string) (s : t) : t :=
  mk v (answer s) (loading s).

Definition set_answer (v : option string) (s : t) : t :=
  mk (lastDescription s) v (loading s).

Definition set_loading (v : bool) (s : t) : t :=
  mk (lastDescription s) (answer s) v.

End AgentState.

Module Agent.

Import AgentState.

(** An element of [#photos]. *)
Record PhotoEntry := mkPhoto {
  photo : bytes;
  description : string
}.

(** The two closures the class passes to [inLock]. *)
Inductive Body :=
| AddPhotoBody (photos : list bytes)   (* the body of [addPhoto], closed over [photos] *)
| AnswerBody (question : string).      (* the body of [answer], closed over [question] *)

(** The [await] at which the locked body is suspended, with the local
    variables its continuation reads. *)
Inductive Await :=
| AwaitImageDescription (p : bytes) (rest : list bytes) (lastDescription : option string)
| AwaitLlamaFind (question : string).

(** The private fields of the class.  [#stateListeners] holds the
    [setState] callbacks of the views; [#notify] stands for one round of
    calling them all. *)
Record Agent := mkAgent {
  lock : AsyncLock.t Body;
  photos : list PhotoEntry;
  state : AgentState.t;
  stateCopy : AgentState.t
}.

(** What the agent does to its collaborators and observers. *)
Inductive Event :=
| StartAudio (ok : bool)                    (* [startAudio()]; [ok = false]: it threw and the catch logged it *)
| Notify (snapshot : AgentState.t)          (* [#notify]: every listener is given [snapshot] *)
| ImageDescription (p : bytes)              (* [imageDescription(p)] is called *)
| LlamaFind (question combined : string)    (* [llamaFind(question, combined)] is called *)
| AddPhotoRejected.                         (* the promise of [addPhoto] rejects *)

(** The agent together with the suspended parts of its calls. *)
Record World := mkWorld {
  agent : Agent;
  suspended : option Await;   (* where the body that holds the lock waits *)
  resuming : nat;             (* [answer] calls whose [await inLock] has settled *)
  trace : list Event          (* oldest first *)
}.

(** [new Agent()] *)
Definition initial : World :=
  mkWorld (mkAgent AsyncLock.create [] (mk None None false) (mk None None false))
          None O [].

(** *** A state monad over [World] *)

Definition M (A : Type) : Type := World -> A * World.

Definition ret {A} (a : A) : M A := fun w => (a, w).

Definition bind {A B} (m : M A) (k : A -> M B) : M B :=
  fun w => let '(a, w1) := m w in k a w1.

Definition exec {A} (m : M A) (w : World) : World := snd (m w).

Notation "x <- m ;; k" := (bind m (fun x => k))
  (at level 61, m at next level, right associativity).
Notation "m ;; k" := (bind m (fun _ => k))
  (at level 61, right associativity).

Definition gets {A} (f : Agent -> A) : M A := fun w => (f (agent w), w).

Definition modify (f : Agent -> Agent) : M unit :=
  fun w => (tt, mkWorld (f (agent w)) (suspended w) (resuming w) (trace w)).

Definition emit (e : Event) : M unit :=
  fun w => (tt, mkWorld (agent w) (suspended w) (resuming w) (trace w ++ [e])).

Definition suspend (a : Await) : M unit :=
  fun w => (tt, mkWorld (agent w) (Some a) (resuming w) (trace w)).

Definition set_resuming (f : nat -> nat) : M unit :=
  fun w => (tt, mkWorld (agent w) (suspended w) (f (resuming w)) (trace w)).

Definition set_lock (f : AsyncLock.t Body -> AsyncLock.t Body) : M unit :=
  modify (fun a => mkAgent (f (lock a)) (photos a) (state a) (stateCopy a)).

Definition set_photos (f : list PhotoEntry -> list PhotoEntry) : M unit :=
  modify (fun a => mkAgent (lock a) (f (photos a)) (state a) (stateCopy a)).

Definition set_state (f : AgentState.t -> AgentState.t) : M unit :=
  modify (fun a => mkAgent (lock a) (photos a) (f (state a)) (stateCopy a)).

Definition set_stateCopy (s : AgentState.t) : M unit :=
  modify (fun a => mkAgent (lock a) (photos a) (state a) s).

(** *** The methods *)

(** [#notify]: [this.#stateCopy = { ...this.#state }], then the listeners. *)
Definition notify : M unit :=
  s <- gets state ;;
  set_stateCopy s ;;
  emit (Notify s).

(** [clearPhotos()] *)
Definition clearPhotos : M unit :=
  set_photos (fun _ => []) ;;
  set_state (set_lastDescription None) ;;
  set_state (set_answer None) ;;
  notify.

(** [addPhoto(photos)], up to the [await] of [inLock]. *)
Definition addPhoto (ps : list bytes) : M unit :=
  set_lock (AsyncLock.inLock (AddPhotoBody ps)).

(** [if (lastDescription)]: a string is truthy unless empty, [null] is not. *)
Definition truthy (s : option string) : bool :=
  match s with
  | Some (String _ _) => true
  | _ => false
  end.

(** The body of [addPhoto] from the head of its [for] loop to the next
    [await], or to its end. *)
Definition addPhoto_loop (ps : list bytes) (lastDescription : option string)
  : M unit :=
  match ps with
  | p :: rest =>
      emit (ImageDescription p) ;;
      suspend (AwaitImageDescription p rest lastDescription)
  | [] =>
      (if truthy lastDescription
       then set_state (set_lastDescription lastDescription) ;; notify
       else ret tt) ;;
      set_lock AsyncLock.finish
  end.

(** The body of [addPhoto] after [await imageDescription(p)]: [r] is the
    description, or [None] when the call rejected, which ends the body,
    [inLock] and [addPhoto] with that rejection. *)
Definition addPhoto_resume (p : bytes) (rest : list bytes) (r : option string)
  : M unit :=
  match r with
  | Some description =>
      set_photos (fun l => l ++ [mkPhoto p description]) ;;
      addPhoto_loop rest (Some description)
  | None =>
      set_lock AsyncLock.finish ;;
      emit AddPhotoRejected
  end.

Definition LF : string := String (ascii_of_nat 10) EmptyString.

(** A counter converted by [+] to a string: its decimal digits. *)
Definition number_to_string (i : nat) : string :=
  NilEmpty.string_of_uint (Nat.to_uint i).

(** The [for] loop of [answer] over [#photos], with its variables [i]
    and [combined]. *)
Fixpoint combine (ps : list PhotoEntry) (i : nat) (combined : string) : string :=
  match ps with
  | [] => combined
  | p :: rest =>
      let combined1 :=
        (combined ++ ((LF ++ LF ++ "Image #") ++ number_to_string i) ++ LF ++ LF)%string in
      let combined2 := (combined1 ++ description p)%string in
      combine rest (S i) combined2
  end.

(** [answer(question)], up to the [await] of [inLock]; [audio] tells
    whether [startAudio()] returned. *)
Definition answer (question : string) (audio : bool) : M unit :=
  emit (StartAudio audio) ;;
  s <- gets state ;;
  if loading s then ret tt
  else
    set_state (set_loading true) ;;
    notify ;;
    set_lock (AsyncLock.inLock (AnswerBody question)).

(** The body of [answer] up to [await llamaFind(question, combined)]. *)
Definition answer_locked (question : string) : M unit :=
  ps <- gets photos ;;
  let combined := combine ps 0 EmptyString in
  emit (LlamaFind question combined) ;;
  suspend (AwaitLlamaFind question).

Definition fallback : string :=
  "Sorry, an error occurred while processing your request.".

(** The body of [answer] after the [await]: [r] is the answer, or [None]
    when [llamaFind] threw; then [inLock] settles. *)
Definition answer_locked_resume (r : option string) : M unit :=
  match r with
  | Some a => set_state (set_answer (Some a))
  | None => set_state (set_answer (Some fallback))
  end ;;
  set_lock AsyncLock.finish ;;
  set_resuming S.

(** [answer] after [await inLock]: the [finally] block. *)
Definition answer_finally : M unit :=
  set_state (set_loading false) ;;
  notify ;;
  set_resuming Nat.pred.

(** *** The event loop *)

Inductive Label :=
| CallClearPhotos
| CallAddPhoto (ps : list bytes)
| CallAnswer (question : string) (audio : bool)
| LockGrant                               (* the lock starts the oldest queued body *)
| ImageDescriptionSettles (r : option string)
| LlamaFindSettles (r : option string)
| AnswerResumes.                          (* an [await inLock] of [answer] returns *)

Definition start_body (b : Body) : M unit :=
  match b with
  | AddPhotoBody ps => addPhoto_loop ps None
  | AnswerBody question => answer_locked question
  end.

Definition clear_suspended : M unit :=
  fun w => (tt, mkWorld (agent w) None (resuming w) (trace w)).

Definition step (l : Label) (w : World) : option World :=
  match l with
  | CallClearPhotos => Some (exec clearPhotos w)
  | CallAddPhoto ps => Some (exec (addPhoto ps) w)
  | CallAnswer question audio => Some (exec (answer question audio) w)
  | LockGrant =>
      match AsyncLock.start (lock (agent w)) with
      | Some (b, l1) => Some (exec (set_lock (fun _ => l1) ;; start_body b) w)
      | None => None
      end
  | ImageDescriptionSettles r =>
      match suspended w with
      | Some (AwaitImageDescription p rest _) =>
          Some (exec (clear_suspended ;; addPhoto_resume p rest r) w)
      | _ => None
      end
  | LlamaFindSettles r =>
      match suspended w with
      | Some (AwaitLlamaFind _) =>
          Some (exec (clear_suspended ;; answer_locked_resume r) w)
      | _ => None
      end
  | AnswerResumes =>
      match resuming w with
      | O => None
      | S _ => Some (exec answer_finally w)
      end
  end.

Fixpoint run (ls : list Label) (w : World) : option World :=
  match ls with
  | [] => Some w
  | l :: rest =>
      match step l w with
      | Some w1 => run rest w1
      | None => None
      end
  end.

End Agent.

(* ================================================================== *)
(** ** Vocabulary of the properties *)

Module AgentProps.

Import AgentState Agent.

(** The context blob as the specification words it: for each photo, in
    accumulation order, the header of its 0-based index followed by its
    description. *)
Fixpoint context_from (i : nat) (ps : list PhotoEntry) : string :=
  match ps with
  | [] => EmptyString
  | p :: rest =>
      (((LF ++ LF ++ "Image #") ++ number_to_string i ++ LF ++ LF)
         ++ description p ++ context_from (S i) rest)%string
  end.

Definition context (ps : list PhotoEntry) : string := context_from 0 ps.

Definition is_answer (b : Body) : bool :=
  match b with
  | AnswerBody _ => true
  | AddPhotoBody _ => false
  end.

Definition awaits_llamaFind (s : option Await) : nat :=
  match s with
  | Some (AwaitLlamaFind _) => 1
  | _ => 0
  end.

(** The calls of [answer] that passed the guard and have not run their
    [finally] yet: queued, in the locked body, or about to resume. *)
Definition answers_in_flight (w : World) : nat :=
  List.length (filter is_answer (AsyncLock.queue (lock (agent w))))
  + awaits_llamaFind (suspended w)
  + resuming w.

Definition is_some {A} (o : option A) : bool :=
  match o with
  | Some _ => true
  | None => false
  end.

(** [loading] counts the calls of [answer] in flight, and the lock runs
    exactly when a body is suspended in it. *)
Definition single_flight (w : World) : bool :=
  Nat.eqb (answers_in_flight w) (if loading (state (agent w)) then 1 else 0)
  && Bool.eqb (AsyncLock.running (lock (agent w))) (is_some (suspended w)).

(** No call is in progress: nothing queued, running or resuming. *)
Definition quiescent (w : World) : bool :=
  negb (AsyncLock.running (lock (agent w)))
  && match AsyncLock.queue (lock (agent w)) with [] => true | _ => false end
  && negb (is_some (suspended w))
  && Nat.eqb (resuming w) 0.

(** The transitions that run code of a closure passed to [inLock]. *)
Definition under_lock (l : Label) : bool :=
  match l with
  | LockGrant | ImageDescriptionSettles _ | LlamaFindSettles _ => true
  | _ => false
  end.

(** The events a transition adds to the trace. *)
Definition emitted (w w1 : World) : list Event :=
  skipn (List.length (trace w)) (trace w1).

Definition is_audio (e : Event) : bool :=
  match e with
  | StartAudio _ => true
  | _ => false
  end.

Definition is_notify (e : Event) : bool :=
  match e with
  | Notify _ => true
  | _ => false
  end.

Definition is_llamaFind (e : Event) : bool :=
  match e with
  | LlamaFind _ _ => true
  | _ => false
  end.

(** *** A schedule that lets a call of [answer] finish

    [describe] gives the outcome of each [imageDescription] call and [r]
    the outcome of [llamaFind]; [None] is a rejection. *)

Fixpoint settle_photos (describe : bytes -> option string) (ps : list bytes)
  : list Label :=
  match ps with
  | [] => []
  | p :: rest =>
      match describe p with
      | Some d => ImageDescriptionSettles (Some d) :: settle_photos describe rest
      | None => [ImageDescriptionSettles None]
      end
  end.

Fixpoint drain_queue (describe : bytes -> option string) (r : option string)
  (q : list Body) : list Label :=
  match q with
  | [] => []
  | AddPhotoBody ps :: rest =>
      LockGrant :: settle_photos describe ps ++ drain_queue describe r rest
  | AnswerBody _ :: _ => [LockGrant; LlamaFindSettles r; AnswerResumes]
  end.

Definition completion (describe : bytes -> option string) (r : option string)
  (w : World) : list Label :=
  match resuming w with
  | S _ => [AnswerResumes]
  | O =>
      match suspended w with
      | Some (AwaitLlamaFind _) => [LlamaFindSettles r; AnswerResumes]
      | Some (AwaitImageDescription p rest _) =>
          settle_photos describe (p :: rest)
          ++ drain_queue describe r (AsyncLock.queue (lock (agent w)))
      | None => drain_queue describe r (AsyncLock.queue (lock (agent w)))
      end
  end.

(** The call of [answer] has ended: [loading] is false and that state is
    the last thing published. *)
Definition ended (w : World) : Prop :=
  loading (state (agent w)) = false /\
  stateCopy (agent w) = state (agent w) /\
  (exists earlier, trace w = earlier ++ [Notify (state (agent w))]) /\
  answers_in_flight w = O.

Definition is_resume (l : Label) : bool :=
  match l with
  | AnswerResumes => true
  | _ => false
  end.

Definition is_clear (l : Label) : bool :=
  match l with
  | CallClearPhotos => true
  | _ => false
  end.

Definition toggles_loading (l : Label) : bool :=
  match l with
  | CallAnswer _ _ | AnswerResumes => true
  | _ => false
  end.

(** The world reached from [new Agent()] by a sequence of transitions. *)
Definition after (ls : list Label) : World :=
  match run ls initial with
  | Some w => w
  | None => initial
  end.

(** A world with one call of [answer] in flight. *)
Definition answering : World := after [CallAnswer "first" true].

(** A world with one photo accumulated and nothing in progress. *)
Definition one_photo : World :=
  after [CallAddPhoto [["001"%byte]]; LockGrant;
         ImageDescriptionSettles (Some "a cat"%string)].

End AgentProps.

(* ================================================================== *)
(** ** The format of the context, character by character *)

Module ContextFormat.

Import Agent.

(** The line feed, U+000A. *)
Definition newline : ascii := "010"%char.

(** The context blob written out: for the photo of index [i] two line
    feeds, the text [Image #], the index, two line feeds, then the
    description. *)
Fixpoint indexed_from (i : nat) (ps : list PhotoEntry) : string :=
  match ps with
  | [] => EmptyString
  | p :: rest =>
      String newline (String newline
        ("Image #" ++ number_to_string i
         ++ String newline (String newline
              (description p ++ indexed_from (S i) rest))))%string
  end.

Definition indexed_context (ps : list PhotoEntry) : string := indexed_from 0 ps.

Definition digit_value (c : ascii) : option nat :=
  match c with
  | "0"%char => Some 0%nat
  | "1"%char => Some 1%nat
  | "2"%char => Some 2%nat
  | "3"%char => Some 3%nat
  | "4"%char => Some 4%nat
  | "5"%char => Some 5%nat
  | "6"%char => Some 6%nat
  | "7"%char => Some 7%nat
  | "8"%char => Some 8%nat
  | "9"%char => Some 9%nat
  | _ => None
  end.

Fixpoint decimal_acc (s : string) (acc : nat) : option nat :=
  match s with
  | EmptyString => Some acc
  | String c rest =>
      match digit_value c with
      | Some d => decimal_acc rest (10 * acc + d)%nat
      | None => None
      end
  end.

(** The number a non-empty string of decimal digits stands for. *)
Definition decimal_value (s : string) : option nat :=
  match s with
  | EmptyString => None
  | _ => decimal_acc s 0
  end.

(** No leading zero, but for the number zero itself. *)
Definition canonical (s : string) : bool :=
  match s with
  | EmptyString => false
  | String "0"%char (String _ _) => false
  | _ => true
  end.


End ContextFormat.

(* ================================================================== *)
(** ** DeviceView.tsx: the notification listener *)

Module Framing.

Import DeviceView.

(** An element of a [Uint8Array], as a number. *)
Definition byte_value (b : byte) : Z := Z.of_N (Byte.to_N b).

(** The listener of ['characteristicvaluechanged'], on the bytes
    [array] of the notification.  With a single byte, [array[1]] is
    [undefined]: the comparison with [0xff] fails, [undefined << 8] is
    [0] and [array.slice(2)] is empty.  With no byte at all the id is
    [NaN], which a [Z] cannot hold: the listener is left undefined there. *)
Definition characteristicvaluechanged (array : bytes) (r : Reassembler)
  : option (Reassembler * list Effect) :=
  match array with
  | [] => None
  | [b0] => Some (onChunk (Some (byte_value b0 + Z.shiftl 0 8)) [] r)
  | b0 :: b1 :: packet =>
      if (byte_value b0 =? 255) && (byte_value b1 =? 255)
      then Some (onChunk None [] r)
      else
        let packetId := byte_value b0 + Z.shiftl (byte_value b1) 8 in
        Some (onChunk (Some packetId) packet r)
  end.

(** The notifications of a stream, in delivery order. *)
Fixpoint notifications (ns : list bytes) (r : Reassembler)
  : option (Reassembler * list Effect) :=
  match ns with
  | [] => Some (r, [])
  | array :: rest =>
      match characteristicvaluechanged array r with
      | None => None
      | Some (r1, out1) =>
          match notifications rest r1 with
          | None => None
          | Some (r2, out2) => Some (r2, out1 ++ out2)
          end
      end
  end.

Definition to_byte (z : Z) : byte :=
  match Byte.of_N (Z.to_N z) with
  | Some b => b
  | None => "000"%byte
  end.

(** The header the listener decodes: two bytes, low byte first. *)
Definition le16 (id : Z) : bytes := [to_byte (id mod 256); to_byte (id / 256)].

(** Payloads framed with the ids [k], [k+1], ... *)
Fixpoint frames (k : Z) (payloads : list bytes) : list bytes :=
  match payloads with
  | [] => []
  | p :: rest => (le16 k ++ p) :: frames (k + 1) rest
  end.

End Framing.

(* ================================================================== *)
(** ** Vocabulary of the capture trigger *)

Module CaptureProps.

Import DeviceView.Capture.

Definition is_write (e : Effect) : bool :=
  match e with
  | WriteValue _ => true
  | _ => false
  end.

Definition is_control_found (i : Input) : bool :=
  match i with
  | ControlFound => true
  | _ => false
  end.

(** A capture is only ever in progress on a control characteristic that
    was found, and no cooldown timer is set further than 2000 ms ahead. *)
Definition armed (c : Controller) : Prop :=
  (isCapturing c = true -> photoControlCharRef c = true) /\
  Forall (fun deadline => deadline <= now c + 2000) (timers c).

(** The cooldown that ends at [deadline] is either still pending, as the
    only timer, or over. *)
Definition cooled (deadline : Z) (c : Controller) : Prop :=
  timers c = [deadline] \/ deadline <= now c.

End CaptureProps.

(* ================================================================== *)
(** ** Vocabulary of the flow of photos through the agent *)

Module AgentFlow.

Import AgentState Agent AgentProps.

(** The photos a suspended body still has to append. *)
Definition in_body (s : option Await) : list bytes :=
  match s with
  | Some (AwaitImageDescription p rest _) => p :: rest
  | _ => []
  end.

(** The photos a queued body will append. *)
Definition batch (b : Body) : list bytes :=
  match b with
  | AddPhotoBody ps => ps
  | AnswerBody _ => []
  end.

(** The photos given to the agent so far, in the order in which they
    are or will be accumulated: those in [#photos], then those of the
    running [addPhoto], then those of the queued ones. *)
Definition pipeline (w : World) : list bytes :=
  map photo (photos (agent w))
  ++ in_body (suspended w)
  ++ List.concat (map batch (AsyncLock.queue (lock (agent w)))).

(** The photos passed to [addPhoto] by the calls among [ls]. *)
Fixpoint added (ls : list Label) : list bytes :=
  match ls with
  | [] => []
  | CallAddPhoto ps :: rest => ps ++ added rest
  | _ :: rest => added rest
  end.

(** A transition that drops photos: [clearPhotos], or a rejected
    [imageDescription]. *)
Definition drops (l : Label) : bool :=
  match l with
  | CallClearPhotos | ImageDescriptionSettles None => true
  | _ => false
  end.

(** The entries [addPhoto] appends for a batch: one per photo up to the
    first whose description is rejected. *)
Fixpoint described (describe : bytes -> option string) (ps : list bytes)
  : list PhotoEntry :=
  match ps with
  | [] => []
  | p :: rest =>
      match describe p with
      | Some d => mkPhoto p d :: described describe rest
      | None => []
      end
  end.

(** The [imageDescription] calls of a batch: every photo up to and
    including the first whose description is rejected. *)
Fixpoint attempted (describe : bytes -> option string) (ps : list bytes)
  : list bytes :=
  match ps with
  | [] => []
  | p :: rest =>
      match describe p with
      | Some _ => p :: attempted describe rest
      | None => [p]
      end
  end.

Definition all_described (describe : bytes -> option string) (ps : list bytes)
  : bool :=
  forallb (fun p => is_some (describe p)) ps.

(** The value of the variable [lastDescription] after the loop over a
    batch whose descriptions all succeed. *)
Fixpoint last_description (describe : bytes -> option string) (ps : list bytes)
  : option string :=
  match ps with
  | [] => None
  | [p] => describe p
  | _ :: rest => last_description describe rest
  end.

(** [addPhoto] publishes after a batch only if every description was
    delivered and the last one is not the empty string. *)
Definition publishes (describe : bytes -> option string) (ps : list bytes)
  : bool :=
  all_described describe ps && truthy (last_description describe ps).

(** What is left to accumulate when [clearPhotos] is called. *)
Definition backlog (w : World) : list bytes :=
  in_body (suspended w)
  ++ List.concat (map batch (AsyncLock.queue (lock (agent w)))).

(** The published snapshot can lag behind the state only in [answer],
    and only while a call of [answer] waits for its [finally]. *)
Definition snapshot_in_sync (w : World) : Prop :=
  lastDescription (stateCopy (agent w)) = lastDescription (state (agent w)) /\
  loading (stateCopy (agent w)) = loading (state (agent w)) /\
  (resuming w = O -> stateCopy (agent w) = state (agent w)).

End AgentFlow.

(* ================================================================== *)
(** ** DeviceView.tsx: the component around the agent

    [photos] is the React state of [usePhotos]; the effect on [photos]
    copies it to [processedPhotos.current] and invalidates [sync], so
    the function wrapped by [InvalidateSync] reads the current list.
    When [InvalidateSync] runs that function is not fixed here: [SyncRuns]
    may happen at any moment. *)

Module Component.

Import Agent.

Record Device := mkDevice {
  photos : list bytes;       (* [photos], also [processedPhotos.current] *)
  processed : nat;           (* the counter closed over by the function given to [InvalidateSync] *)
  agent : Agent.World        (* [agent], with its calls in progress *)
}.

(** The function given to [InvalidateSync], up to its [await]. *)
Definition sync_run (d : Device) : Device :=
  if (processed d <? List.length (photos d))%nat then
    let unprocessed := skipn (processed d) (photos d) in
    mkDevice (photos d) (List.length (photos d))
             (exec (addPhoto unprocessed) (agent d))
  else d.

(** [handleClearPhotos]: [clearPhotos()] of [usePhotos], then
    [agent.clearPhotos()]. *)
Definition handleClearPhotos (d : Device) : Device :=
  mkDevice [] (processed d) (exec Agent.clearPhotos (agent d)).

(** [setPhotos((p) => [...p, rotated])] *)
Definition photo_rotated (rotated : bytes) (d : Device) : Device :=
  mkDevice (photos d ++ [rotated]) (processed d) (agent d).

(** The component after mounting: the effect on [agent] has called
    [agent.clearPhotos()]. *)
Definition mounted : Device :=
  mkDevice [] O (exec Agent.clearPhotos Agent.initial).

Inductive Input :=
| PhotoRotated (rotated : bytes)   (* a [rotateImage] promise resolves *)
| SyncRuns                         (* [InvalidateSync] runs its function *)
| ClearPressed                     (* [handleClearPhotos] *)
| AgentMoves (l : Agent.Label).    (* [agent.answer], or a suspended call goes on *)

(** The component calls [addPhoto] and [clearPhotos] itself; every other
    transition of the agent can happen under it. *)
Definition allowed (l : Agent.Label) : bool :=
  match l with
  | CallAddPhoto _ | CallClearPhotos => false
  | _ => true
  end.

Definition step (i : Input) (d : Device) : option Device :=
  match i with
  | PhotoRotated rotated => Some (photo_rotated rotated d)
  | SyncRuns => Some (sync_run d)
  | ClearPressed => Some (handleClearPhotos d)
  | AgentMoves l =>
      if allowed l then
        match Agent.step l (agent d) with
        | Some w => Some (mkDevice (photos d) (processed d) w)
        | None => None
        end
      else None
  end.

Fixpoint run (inputs : list Input) (d : Device) : option Device :=
  match inputs with
  | [] => Some d
  | i :: rest =>
      match step i d with
      | Some d1 => run rest d1
      | None => None
      end
  end.

(** An input after which a photo given to the component may never
    reach [#photos]. *)
Definition lossy (i : Input) : bool :=
  match i with
  | ClearPressed => true
  | AgentMoves l => AgentFlow.drops l
  | _ => false
  end.

Definition arrivals (inputs : list Input) : nat :=
  List.length
    (filter (fun i => match i with PhotoRotated _ => true | _ => false end) inputs).

End Component.

(* ================================================================== *)
(** ** Vocabulary of the reassembly *)

Module ReassemblyProps.

Import DeviceView.

(** The chunks delivered so far leave the reassembler idle, or they end
    with the chunks 0, 1, ..., n-1 of an open transfer whose payloads
    are in the buffer. *)
Definition tracks (delivered : list Chunk) (r : Reassembler) : Prop :=
  idle r \/
  exists before payloads,
    payloads <> [] /\
    delivered = before ++ numbered 0 payloads /\
    previousChunk r = Z.of_nat (List.length payloads) - 1 /\
    buffer r = List.concat payloads.

(** [image] is what a complete transfer inside the stream carries: the
    chunks 0, 1, ..., n-1 in a row, then a terminator. *)
Definition carried_by (stream : list Chunk) (image : bytes) : Prop :=
  exists before payloads terminator rest,
    payloads <> [] /\
    stream = before ++ numbered 0 payloads ++ (None, terminator) :: rest /\
    image = List.concat payloads.

Definition is_terminator (c : Chunk) : bool :=
  match fst c with
  | None => true
  | Some _ => false
  end.

Definition is_start (c : Chunk) : bool :=
  match fst c with
  | Some i => i =? 0
  | None => false
  end.

End ReassemblyProps.

(* ================================================================== *)
(** ** The chunk reassembler *)

Section Reassembly.

Import DeviceView.

Lemma onChunks_app (cs1 cs2 : list Chunk) (r : Reassembler) :
  onChunks (cs1 ++ cs2) r =
  let '(r1, out1) := onChunks cs1 r in
  let '(r2, out2) := onChunks cs2 r1 in
  (r2, out1 ++ out2).
Proof.
  revert r; induction cs1 as [|[id data] cs1 IH]; intros r; simpl.
  - destruct (onChunks cs2 r); reflexivity.
  - destruct (onChunk id data r) as [r1 o1].
    rewrite IH.
    destruct (onChunks cs1 r1) as [r2 o2].
    destruct (onChunks cs2 r2) as [r3 o3].
    now rewrite app_assoc.
Qed.

(** In a transfer that expects [k], the chunks [k], [k+1], ... are all
    appended and nothing is emitted. *)
Lemma numbered_appends (payloads : list bytes) (k : Z) (buf : bytes) :
  0 < k ->
  onChunks (numbered k payloads) (mkReassembler (k - 1) buf) =
  (mkReassembler (k - 1 + Z.of_nat (List.length payloads)) (buf ++ List.concat payloads), []).
Proof.
  revert k buf; induction payloads as [|p ps IH]; intros k buf Hk; simpl.
  - now rewrite Z.add_0_r, app_nil_r.
  - unfold onChunk; simpl.
    destruct (Z.eqb_spec (k - 1) (-1)); [lia|].
    replace (k =? k - 1 + 1) with true by (symmetry; apply Z.eqb_eq; lia).
    simpl.
    replace k with (k + 1 - 1) at 2 by lia.
    rewrite IH by lia.
    f_equal. f_equal; [lia | now rewrite <- app_assoc].
Qed.

(** From the idle state, the chunks [0], [1], ..., [n-1] with [n >= 1]
    open a transfer that holds their payloads and expects [n]. *)
Lemma transfer_in_order (p : bytes) (ps : list bytes) (r : Reassembler) :
  idle r ->
  onChunks (numbered 0 (p :: ps)) r =
  (mkReassembler (Z.of_nat (List.length ps)) (List.concat (p :: ps)), []).
Proof.
  unfold idle; intros Hr; simpl.
  unfold onChunk at 1; rewrite Hr; simpl.
  replace 0 with (1 - 1) at 2 by lia.
  rewrite numbered_appends by lia.
  f_equal.
Qed.

(** While idle, chunks that cannot start a transfer change nothing. *)
Lemma strays_ignored (cs : list Chunk) (r : Reassembler) :
  idle r -> forallb stray cs = true -> onChunks cs r = (r, []).
Proof.
  unfold idle; intros Hr; induction cs as [|[id data] cs IH]; simpl; intros H.
  - reflexivity.
  - apply andb_prop in H as [Hc H].
    unfold onChunk; rewrite Hr; simpl.
    unfold stray in Hc; simpl in Hc.
    destruct id as [i|].
    + apply negb_true_iff in Hc; rewrite Hc.
      now rewrite IH.
    + now rewrite IH.
Qed.

(** Mid-transfer, a chunk whose id is not the expected one resets the
    reassembler to idle and emits no image. *)
Lemma gap_resets (g : Z) (d : bytes) (r : Reassembler) :
  ~ idle r ->
  g <> previousChunk r + 1 ->
  onChunk (Some g) d r = (mkReassembler (-1) (buffer r), [InvalidChunk g (-1)]).
Proof.
  unfold idle, onChunk; intros Hr Hg.
  destruct (Z.eqb_spec (previousChunk r) (-1)); [contradiction|].
  destruct (Z.eqb_spec g (previousChunk r + 1)); [contradiction|].
  reflexivity.
Qed.

(** From the idle state, a complete in-order transfer ends idle, with
    the image still in the buffer and emitted once. *)
Lemma complete_transfer
  (p : bytes) (ps : list bytes) (terminator : bytes) (r : Reassembler) :
  idle r ->
  onChunks (numbered 0 (p :: ps) ++ [(None, terminator)]) r =
  (mkReassembler (-1) (List.concat (p :: ps)),
   [PhotoReceived (List.concat (p :: ps))]).
Proof.
  intros Hr.
  rewrite onChunks_app, transfer_in_order by assumption.
  unfold onChunks, onChunk; cbn [previousChunk buffer].
  destruct (Z.eqb_spec (Z.of_nat (List.length ps)) (-1)); [lia|].
  reflexivity.
Qed.

(** The scenario of the specification, as one stream. *)
Example two_transfers_and_a_gap :
  images (snd (onChunks
    [(Some 0, list_byte_of_string "AB"); (Some 1, list_byte_of_string "CD");
     (None, []);
     (Some 0, list_byte_of_string "X"); (Some 2, list_byte_of_string "Y");
     (Some 0, list_byte_of_string "Z"); (None, [])] initial)) =
  [list_byte_of_string "ABCD"; list_byte_of_string "Z"].
Proof. reflexivity. Qed.

(** A terminator received while idle changes nothing. *)
Example terminator_while_idle (r : Reassembler) (data : bytes) :
  idle r -> onChunk None data r = (r, []).
Proof. unfold idle, onChunk; intros ->; reflexivity. Qed.

(** C1.  From the idle state, the chunks 0, 1, ..., n-1 (n >= 1)
    delivered in order and followed by a terminator make [onChunk] emit
    exactly one completed image, the concatenation of the n payloads in
    delivery order, and leave the reassembler idle. *)
Theorem in_order_transfer_emits_concatenation
  (payloads : list bytes) (terminator : bytes) (r : Reassembler) :
  idle r ->
  payloads <> [] ->
  let '(r1, out) := onChunks (numbered 0 payloads ++ [(None, terminator)]) r in
  out = [PhotoReceived (List.concat payloads)] /\ idle r1.
Proof.
  intros Hr Hne.
  destruct payloads as [|p ps]; [congruence|].
  rewrite complete_transfer by assumption.
  split; reflexivity.
Qed.

Lemma in_order_transfer_emits_concatenation_witness :
  let '(r1, out) :=
    onChunks (numbered 0 [list_byte_of_string "AB"; list_byte_of_string "CD"]
              ++ [(None, [])]) initial in
  out = [PhotoReceived (list_byte_of_string "ABCD")] /\ idle r1.
Proof.
  apply (in_order_transfer_emits_concatenation
           [list_byte_of_string "AB"; list_byte_of_string "CD"] [] initial).
  - reflexivity.
  - discriminate.
Defined.

(** C2.  A transfer with a gap (chunks 0..k-1 in order, k >= 1, then a
    chunk whose id is not k) emits no image, neither at the gap nor for
    whatever follows before the next chunk 0; the reassembler is idle
    after it, and a fresh transfer started by a chunk 0 then completes
    with exactly its own payloads. *)
Theorem gap_drops_transfer_and_recovers
  (payloads : list bytes) (g : Z) (d : bytes) (strays : list Chunk)
  (fresh : list bytes) (terminator : bytes) (r : Reassembler) :
  idle r ->
  payloads <> [] ->
  g <> Z.of_nat (List.length payloads) ->
  forallb stray strays = true ->
  fresh <> [] ->
  let '(r1, out1) := onChunks (numbered 0 payloads ++ (Some g, d) :: strays) r in
  let '(r2, out2) := onChunks (numbered 0 fresh ++ [(None, terminator)]) r1 in
  out1 = [InvalidChunk g (-1)] /\ images out1 = [] /\ idle r1 /\
  out2 = [PhotoReceived (List.concat fresh)] /\ idle r2.
Proof.
  intros Hr Hne Hg Hs Hf.
  destruct payloads as [|p ps]; [congruence|].
  rewrite onChunks_app, transfer_in_order by assumption.
  cbn [onChunks].
  rewrite gap_resets; cbn [previousChunk buffer idle].
  - rewrite strays_ignored by (assumption || reflexivity).
    destruct fresh as [|q qs]; [congruence|].
    rewrite complete_transfer by reflexivity.
    cbn [app images]. repeat split; reflexivity.
  - unfold idle; cbn; lia.
  - cbn [List.length] in Hg. lia.
Qed.

Lemma gap_drops_transfer_and_recovers_witness :
  let '(r1, out1) :=
    onChunks (numbered 0 [list_byte_of_string "X"]
              ++ (Some 2, list_byte_of_string "Y") :: []) initial in
  let '(r2, out2) :=
    onChunks (numbered 0 [list_byte_of_string "Z"] ++ [(None, [])]) r1 in
  out1 = [InvalidChunk 2 (-1)] /\ images out1 = [] /\ idle r1 /\
  out2 = [PhotoReceived (list_byte_of_string "Z")] /\ idle r2.
Proof.
  apply (gap_drops_transfer_and_recovers
           [list_byte_of_string "X"] 2 (list_byte_of_string "Y") []
           [list_byte_of_string "Z"] [] initial).
  - reflexivity.
  - discriminate.
  - simpl; lia.
  - reflexivity.
  - discriminate.
Defined.

End Reassembly.

(* ================================================================== *)
(** ** The capture trigger *)

Section CaptureDebounce.

Import DeviceView.Capture.

Lemma initial_consistent : consistent initial.
Proof. right; repeat split. Qed.

Lemma step_consistent (i : Input) (c c1 : Controller) (out : list Effect) :
  consistent c -> step i c = Some (c1, out) -> consistent c1.
Proof.
  unfold consistent; intros H Hs.
  destruct i; simpl in Hs.
  - injection Hs as <- _; exact H.
  - unfold takePhoto in Hs.
    destruct (photoControlCharRef c && negb (isCapturing c)) eqn:E;
      injection Hs as <- _; [|exact H].
    apply andb_prop in E as [_ E]; apply negb_true_iff in E.
    destruct H as [[H _]|(_ & Hw & Ht)]; [congruence|].
    left; simpl; rewrite Hw, Ht; split; reflexivity.
  - destruct (writing c) as [|n] eqn:Ew; [discriminate|].
    unfold takePhoto_settled in Hs; rewrite Ew in Hs; simpl in Hs.
    destruct H as [[H Hn]|(_ & Hw & _)]; [|discriminate].
    assert (n = O /\ timers c = []) as [-> Ht].
    { destruct (timers c); simpl in Hn; split; [lia|reflexivity|lia|lia]. }
    destruct ok; injection Hs as <- _; simpl.
    + left; rewrite Ht; split; [assumption|reflexivity].
    + right; repeat split; assumption.
  - destruct (0 <=? ms); [|discriminate].
    injection Hs as <- _; exact H.
  - destruct (timers c) as [|deadline rest] eqn:Et; [discriminate|].
    destruct (deadline <=? now c); [|discriminate].
    injection Hs as <- _; simpl.
    destruct H as [[_ Hn]|(_ & _ & Ht)]; [|discriminate].
    simpl in Hn.
    right; repeat split; [lia|].
    destruct rest; [reflexivity|simpl in Hn; lia].
Qed.

Lemma run_consistent (inputs : list Input) (c c1 : Controller) (out : list Effect) :
  consistent c -> run inputs c = Some (c1, out) -> consistent c1.
Proof.
  revert c out; induction inputs as [|i rest IH]; intros c out H Hr; simpl in Hr.
  - injection Hr as <- _; exact H.
  - destruct (step i c) as [[c2 o2]|] eqn:Es; [|discriminate].
    destruct (run rest c2) as [[c3 o3]|] eqn:Er; [|discriminate].
    injection Hr as <- _.
    eapply IH; [eapply step_consistent; eassumption | eassumption].
Qed.

Lemma cooling_is_capturing (c : Controller) :
  consistent c -> cooling c = true -> isCapturing c = true.
Proof.
  unfold consistent, cooling; intros [[H _]|(_ & _ & Ht)] Hc; [exact H|].
  rewrite Ht in Hc; discriminate.
Qed.

(** C8.  In every state the controller can reach, a press made while the
    cooldown of a previous capture has not elapsed writes nothing to the
    capture-control channel and only reports the rejection; the
    controller is left as it was, so whatever happens next is what would
    have happened without that press: the request is not deferred. *)
Theorem capture_during_cooldown_rejected
  (history : list Input) (c : Controller) (out : list Effect) :
  run history initial = Some (c, out) ->
  cooling c = true ->
  takePhoto c = (c, [NotAvailableOrCapturing]) /\
  forall later : list Input,
    run (Press :: later) c =
    match run later c with
    | Some (c1, out1) => Some (c1, NotAvailableOrCapturing :: out1)
    | None => None
    end.
Proof.
  intros Hr Hc.
  assert (isCapturing c = true) as Hi.
  { apply cooling_is_capturing; [|assumption].
    eapply run_consistent; [apply initial_consistent | eassumption]. }
  assert (takePhoto c = (c, [NotAvailableOrCapturing])) as Ht.
  { unfold takePhoto; rewrite Hi, andb_false_r; reflexivity. }
  split; [exact Ht|].
  intros later; simpl; rewrite Ht.
  destruct (run later c) as [[c1 out1]|]; reflexivity.
Qed.

Lemma capture_during_cooldown_rejected_witness :
  let c := mkController true true 0 1999 [2000] in
  takePhoto c = (c, [NotAvailableOrCapturing]) /\
  forall later : list Input,
    run (Press :: later) c =
    match run later c with
    | Some (c1, out1) => Some (c1, NotAvailableOrCapturing :: out1)
    | None => None
    end.
Proof.
  apply (capture_during_cooldown_rejected
           [ControlFound; Press; WriteSettled true; Elapse 1999]
           (mkController true true 0 1999 [2000])
           [WriteValue ["001"%byte]; CommandSent]).
  - reflexivity.
  - reflexivity.
Defined.

End CaptureDebounce.

(* ================================================================== *)
(** ** The agent pipeline *)

Section AgentPipeline.

Import AgentState Agent AgentProps.

Lemma single_flight_spec (w : World) :
  single_flight w = true <->
  answers_in_flight w = (if loading (state (agent w)) then 1 else 0)%nat /\
  AsyncLock.running (lock (agent w)) = is_some (suspended w).
Proof.
  unfold single_flight.
  rewrite andb_true_iff, Nat.eqb_eq, Bool.eqb_true_iff. tauto.
Qed.

Ltac run_method :=
  cbv [exec clearPhotos addPhoto answer answer_locked answer_locked_resume
       answer_finally addPhoto_resume addPhoto_loop start_body notify
       clear_suspended set_lock set_photos set_state set_stateCopy
       set_resuming modify gets emit suspend bind ret step
       AsyncLock.start AsyncLock.finish AsyncLock.inLock
       agent suspended resuming trace lock photos state stateCopy
       AsyncLock.running AsyncLock.queue snd fst];
  cbn.

(** Every transition keeps [loading] in step with the calls of [answer]
    in flight, and the lock with the suspended body. *)
Lemma step_single_flight (l : Label) (w w1 : World) :
  single_flight w = true -> step l w = Some w1 -> single_flight w1 = true.
Proof.
  rewrite !single_flight_spec.
  destruct w as [[[busy q] ps st sc] susp res tr].
  unfold answers_in_flight; cbn.
  intros [Hc Hr] Hs; subst busy.
  destruct l; cbn in Hs.
  - injection Hs as <-. run_method. split; [assumption|reflexivity].
  - injection Hs as <-. run_method.
    rewrite filter_app, length_app; cbn. split; [lia|reflexivity].
  - injection Hs as <-. run_method.
    destruct (loading st) eqn:El; cbn.
    + rewrite El. split; [assumption|reflexivity].
    + rewrite filter_app, length_app; cbn. split; [lia|reflexivity].
  - unfold AsyncLock.start in Hs; cbn in Hs.
    destruct susp; [discriminate|]; cbn in Hs.
    destruct q as [|b q]; [discriminate|].
    injection Hs as <-.
    destruct b as [[|p rest]|question]; run_method; cbn in Hc.
    + split; [assumption|reflexivity].
    + split; [assumption|reflexivity].
    + split; [lia|reflexivity].
  - destruct susp as [[p rest last|question]|]; try discriminate.
    injection Hs as <-.
    destruct r as [d|]; [destruct rest as [|p1 rest]|]; run_method; cbn in Hc.
    + destruct d; cbn; split; (assumption || reflexivity).
    + split; [assumption|reflexivity].
    + split; [assumption|reflexivity].
  - destruct susp as [[p rest last|question]|]; try discriminate.
    injection Hs as <-.
    destruct r as [a|]; run_method; cbn in Hc; (split; [lia|reflexivity]).
  - destruct res as [|n]; [discriminate|].
    injection Hs as <-. run_method.
    destruct (loading st); [|lia].
    split; [lia|reflexivity].
Qed.


Lemma run_single_flight (ls : list Label) (w w1 : World) :
  single_flight w = true -> run ls w = Some w1 -> single_flight w1 = true.
Proof.
  revert w; induction ls as [|l ls IH]; intros w H Hr; simpl in Hr.
  - now injection Hr as <-.
  - destruct (step l w) as [w2|] eqn:Es; [|discriminate].
    eapply IH; [eapply step_single_flight; eassumption | assumption].
Qed.

(** In particular in every world reached from [new Agent()]. *)
Lemma reachable_single_flight (ls : list Label) (w : World) :
  run ls initial = Some w -> single_flight w = true.
Proof. apply run_single_flight; reflexivity. Qed.

Lemma run_app (ls1 ls2 : list Label) (w : World) :
  run (ls1 ++ ls2) w =
  match run ls1 w with
  | Some w1 => run ls2 w1
  | None => None
  end.
Proof.
  revert w; induction ls1 as [|l ls1 IH]; intros w; simpl.
  - reflexivity.
  - destruct (step l w); [apply IH | reflexivity].
Qed.

(** Only the [finally] of [answer] can end [loading]. *)
Lemma step_keeps_loading (l : Label) (w w1 : World) :
  step l w = Some w1 ->
  is_resume l = false ->
  loading (state (agent w)) = true ->
  loading (state (agent w1)) = true.
Proof.
  destruct w as [[[busy q] ps st sc] susp res tr]; cbn.
  intros Hs Hl Hw.
  destruct l; cbn in Hs; try discriminate.
  - injection Hs as <-. run_method. assumption.
  - injection Hs as <-. run_method. assumption.
  - injection Hs as <-. run_method. rewrite Hw; cbn. assumption.
  - unfold AsyncLock.start in Hs; cbn in Hs.
    destruct busy; [discriminate|].
    destruct q as [|b q]; [discriminate|].
    injection Hs as <-.
    destruct b as [[|p rest]|question]; run_method; assumption.
  - destruct susp as [[p rest last|question]|]; try discriminate.
    injection Hs as <-.
    destruct r as [d|]; [destruct rest as [|p1 rest]|]; run_method;
      try assumption.
    destruct d; cbn; assumption.
  - destruct susp as [[p rest last|question]|]; try discriminate.
    injection Hs as <-.
    destruct r as [a|]; run_method; assumption.
Qed.

Lemma run_keeps_loading (ls : list Label) (w w1 : World) :
  run ls w = Some w1 ->
  existsb is_resume ls = false ->
  loading (state (agent w)) = true ->
  loading (state (agent w1)) = true.
Proof.
  revert w; induction ls as [|l ls IH]; intros w Hr Hl Hw; simpl in Hr, Hl.
  - now injection Hr as <-.
  - apply orb_false_elim in Hl as [Hl1 Hl2].
    destruct (step l w) as [w2|] eqn:Es; [|discriminate].
    eapply IH; [eassumption | assumption |].
    eapply step_keeps_loading; eassumption.
Qed.

(** The [finally] of the one call in flight ends it. *)
Lemma finally_ends (w w1 : World) :
  single_flight w = true ->
  step AnswerResumes w = Some w1 ->
  ended w1.
Proof.
  rewrite single_flight_spec.
  destruct w as [[[busy q] ps st sc] susp res tr].
  unfold answers_in_flight, ended; cbn.
  intros [Hc Hr] Hs.
  destruct res as [|n]; [discriminate|].
  injection Hs as <-. run_method.
  repeat split.
  - exists tr; reflexivity.
  - unfold answers_in_flight; cbn. destruct (loading st); lia.
Qed.


(** A suspended [addPhoto] body runs to its end, whatever the outcomes
    of its [imageDescription] calls, and hands the lock back. *)
Lemma settle_photos_finishes (describe : bytes -> option string)
  (rest : list bytes) (p : bytes) (last : option string) (w : World) :
  suspended w = Some (AwaitImageDescription p rest last) ->
  exists w1,
    run (settle_photos describe (p :: rest)) w = Some w1 /\
    suspended w1 = None /\
    AsyncLock.running (lock (agent w1)) = false /\
    AsyncLock.queue (lock (agent w1)) = AsyncLock.queue (lock (agent w)) /\
    resuming w1 = resuming w /\
    loading (state (agent w1)) = loading (state (agent w)).
Proof.
  revert p last w; induction rest as [|p1 rest IH]; intros p last w Hs;
    destruct w as [[[busy q] ps st sc] susp res tr]; cbn in Hs; subst susp;
    cbn [settle_photos]; destruct (describe p) as [d|] eqn:Ed.
  - eexists; split; [reflexivity|].
    run_method. destruct d; cbn; repeat split.
  - eexists; split; [reflexivity|]. run_method. repeat split.
  - cbn [run step suspended].
    match goal with |- context [run _ ?w] => destruct (IH p1 (Some d) w) as (w1 & Hr & H) end.
    { reflexivity. }
    exists w1; split; [exact Hr|]. exact H.
  - eexists; split; [reflexivity|]. run_method. repeat split.
Qed.


(** With the lock free, the queued bodies run one after the other up to
    and including the one queued call of [answer], which then ends. *)
Lemma drain_queue_ends (describe : bytes -> option string) (r : option string)
  (q : list Body) (w : World) :
  suspended w = None ->
  AsyncLock.running (lock (agent w)) = false ->
  AsyncLock.queue (lock (agent w)) = q ->
  resuming w = O ->
  List.length (filter is_answer q) = 1%nat ->
  exists w1, run (drain_queue describe r q) w = Some w1 /\ ended w1.
Proof.
  revert w; induction q as [|b q IH]; intros w Hs Hb Hq Hres Hn.
  - discriminate.
  - destruct w as [[[busy q0] ps st sc] susp res tr]; cbn in Hs, Hb, Hq, Hres.
    subst susp busy q0 res.
    destruct b as [[|p rest]|question]; cbn [drain_queue].
    + cbn. run_method.
      apply IH; try reflexivity; assumption.
    + remember (settle_photos describe (p :: rest)) as sched eqn:Esched.
      cbn -[drain_queue]. run_method.
      rewrite run_app.
      match goal with |- context [run sched ?w] =>
        destruct (settle_photos_finishes describe rest p None w)
          as (w1 & Hr & Hs1 & Hb1 & Hq1 & Hres1 & _) end.
      { reflexivity. }
      rewrite <- Esched in Hr. rewrite Hr.
      apply IH; try assumption.
    + cbn in Hn.
      unfold ended, answers_in_flight.
      destruct r as [a|]; cbn [run]; run_method;
        (eexists; split; [reflexivity|]); cbn;
        (repeat split; [eexists; reflexivity | lia]).
Qed.

(** Whatever else is queued or running, and whatever the collaborators
    answer, the call of [answer] in flight runs to its end. *)
Lemma completion_ends (describe : bytes -> option string) (r : option string)
  (w : World) :
  single_flight w = true ->
  loading (state (agent w)) = true ->
  exists w1, run (completion describe r w) w = Some w1 /\ ended w1.
Proof.
  intros Hsf Hl.
  pose proof Hsf as Hsf'.
  rewrite single_flight_spec in Hsf'; destruct Hsf' as [Hc Hb].
  rewrite Hl in Hc. unfold answers_in_flight in Hc.
  unfold completion.
  destruct (resuming w) as [|n] eqn:Eres.
  - destruct (suspended w) as [[p rest last|question]|] eqn:Es.
    + rewrite run_app.
      destruct (settle_photos_finishes describe rest p last w Es)
        as (w1 & Hr & Hs1 & Hb1 & Hq1 & Hres1 & _).
      rewrite Hr.
      apply drain_queue_ends; try assumption; try congruence.
      cbn in Hc; lia.
    + destruct w as [[[busy q] ps st sc] susp res tr]; cbn in *.
      subst susp res.
      unfold ended, answers_in_flight.
      destruct r as [a|]; cbn [run]; run_method;
        (eexists; split; [reflexivity|]); cbn;
        (repeat split; [eexists; reflexivity | lia]).
    + apply drain_queue_ends; try assumption; try reflexivity.
      cbn in Hc; lia.
  - destruct (step AnswerResumes w) as [w1|] eqn:Es.
    + exists w1; split; [cbn [run]; now rewrite Es|].
      eapply finally_ends; eassumption.
    + cbn in Es. rewrite Eres in Es. discriminate.
Qed.


Example number_to_string_12 : number_to_string 12 = "12"%string.
Proof. reflexivity. Qed.

Example context_of_two :
  combine [mkPhoto [] "a cat"; mkPhoto [] "a dog"] 0 EmptyString =
  (LF ++ LF ++ "Image #0" ++ LF ++ LF ++ "a cat" ++
   LF ++ LF ++ "Image #1" ++ LF ++ LF ++ "a dog")%string.
Proof. reflexivity. Qed.

(** [addPhoto([p1, p2])] immediately followed by [addPhoto([p3])]: the
    three photos are accumulated in call order. *)
Example two_addPhoto_calls_in_order :
  map description
    (photos (agent (after [CallAddPhoto [["001"%byte]; ["002"%byte]];
                           CallAddPhoto [["003"%byte]];
                           LockGrant;
                           ImageDescriptionSettles (Some "one"%string);
                           ImageDescriptionSettles (Some "two"%string);
                           LockGrant;
                           ImageDescriptionSettles (Some "three"%string)]))) =
  ["one"; "two"; "three"]%string.
Proof. reflexivity. Qed.

(** A whole question, answered: the last thing published is the answer
    with [loading] false. *)
Example answered_question :
  stateCopy (agent (after [CallAnswer "what animal?" true; LockGrant;
                           LlamaFindSettles (Some "a cat"%string); AnswerResumes])) =
  mk None (Some "a cat"%string) false.
Proof. reflexivity. Qed.

(** When [llamaFind] throws, the fallback text is the answer. *)
Example failed_question :
  stateCopy (agent (after [CallAnswer "what animal?" true; LockGrant;
                           LlamaFindSettles None; AnswerResumes])) =
  mk None (Some fallback) false.
Proof. reflexivity. Qed.

Lemma skipn_own_length {A} (a b : list A) :
  skipn (List.length a) (a ++ b) = b.
Proof. rewrite skipn_app, skipn_all, Nat.sub_diag. reflexivity. Qed.

Lemma string_app_assoc (a b c : string) :
  ((a ++ b) ++ c)%string = (a ++ b ++ c)%string.
Proof. induction a as [|x a IH]; simpl; [reflexivity | now rewrite IH]. Qed.

Lemma string_app_nil_r (a : string) : (a ++ EmptyString)%string = a.
Proof. induction a as [|x a IH]; simpl; [reflexivity | now rewrite IH]. Qed.

(** The loop of [answer] appends to [combined] the indexed descriptions
    of the photos it still has to visit. *)
Lemma combine_context_from (ps : list PhotoEntry) (i : nat) (combined : string) :
  combine ps i combined = (combined ++ context_from i ps)%string.
Proof.
  revert i combined; induction ps as [|p ps IH]; intros i combined;
    cbn [combine context_from].
  - now rewrite string_app_nil_r.
  - rewrite IH. now rewrite !string_app_assoc.
Qed.

(** C3.  In every world where [loading] counts the calls in flight (as
    it does from [new Agent()] on), a call of [answer] that finds
    [loading] false sets it and becomes the one call in flight; whatever
    happens next short of its own [finally], [loading] stays true; its
    [finally] leaves [loading] false and published; and the call does
    reach that end, whether [llamaFind] answers or throws. *)
Theorem answer_ends_not_loading (w : World) (question : string) (audio : bool) :
  single_flight w = true ->
  loading (state (agent w)) = false ->
  let w1 := exec (answer question audio) w in
  loading (state (agent w1)) = true /\
  answers_in_flight w1 = 1%nat /\
  forall (ls : list Label) (w2 : World),
    run ls w1 = Some w2 ->
    existsb is_resume ls = false ->
    loading (state (agent w2)) = true /\
    answers_in_flight w2 = 1%nat /\
    (forall w3, step AnswerResumes w2 = Some w3 -> ended w3) /\
    (forall describe r,
        exists w3, run (completion describe r w2) w2 = Some w3 /\ ended w3).
Proof.
  intros Hsf Hl w1.
  assert (step (CallAnswer question audio) w = Some w1) as Hs by reflexivity.
  pose proof (step_single_flight _ _ _ Hsf Hs) as Hsf1.
  assert (loading (state (agent w1)) = true) as Hl1.
  { subst w1. destruct w as [[[busy q] ps st sc] susp res tr]; cbn in Hl.
    run_method. rewrite Hl. reflexivity. }
  pose proof Hsf1 as Hc1. rewrite single_flight_spec in Hc1.
  rewrite Hl1 in Hc1.
  split; [exact Hl1|]. split; [apply Hc1|].
  intros ls w2 Hr Hres.
  pose proof (run_single_flight _ _ _ Hsf1 Hr) as Hsf2.
  pose proof (run_keeps_loading _ _ _ Hr Hres Hl1) as Hl2.
  pose proof Hsf2 as Hc2. rewrite single_flight_spec in Hc2.
  rewrite Hl2 in Hc2.
  split; [exact Hl2|]. split; [apply Hc2|]. split.
  - intros w3 H3. eapply finally_ends; eassumption.
  - intros describe r. apply completion_ends; assumption.
Qed.

Lemma answer_ends_not_loading_witness :
  let w1 := exec (answer "what animal?" true) initial in
  loading (state (agent w1)) = true /\
  answers_in_flight w1 = 1%nat /\
  forall (ls : list Label) (w2 : World),
    run ls w1 = Some w2 ->
    existsb is_resume ls = false ->
    loading (state (agent w2)) = true /\
    answers_in_flight w2 = 1%nat /\
    (forall w3, step AnswerResumes w2 = Some w3 -> ended w3) /\
    (forall describe r,
        exists w3, run (completion describe r w2) w2 = Some w3 /\ ended w3).
Proof.
  apply (answer_ends_not_loading initial "what animal?"%string true).
  - reflexivity.
  - reflexivity.
Defined.

(** C4.  A call of [answer] made while [loading] is true changes no
    field of the agent (photos, state, published copy, lock and its
    queue), leaves every suspended call as it was, and calls nothing but
    [startAudio]: [llamaFind] is not invoked and nothing is handed to
    the lock. *)
Theorem answer_while_loading_is_dropped (w : World) (question : string) (audio : bool) :
  loading (state (agent w)) = true ->
  let w1 := exec (answer question audio) w in
  agent w1 = agent w /\
  suspended w1 = suspended w /\
  resuming w1 = resuming w /\
  trace w1 = trace w ++ [StartAudio audio] /\
  existsb is_llamaFind (emitted w w1) = false /\
  AsyncLock.queue (lock (agent w1)) = AsyncLock.queue (lock (agent w)).
Proof.
  intros Hl w1; subst w1.
  destruct w as [[l ps st sc] susp res tr]; cbn in Hl.
  unfold emitted. run_method. rewrite Hl; cbn.
  rewrite skipn_own_length.
  repeat split.
Qed.


Lemma answer_while_loading_is_dropped_witness :
  let w := answering in
  let w1 := exec (answer "second" true) w in
  agent w1 = agent w /\
  suspended w1 = suspended w /\
  resuming w1 = resuming w /\
  trace w1 = trace w ++ [StartAudio true] /\
  existsb is_llamaFind (emitted w w1) = false /\
  AsyncLock.queue (lock (agent w1)) = AsyncLock.queue (lock (agent w)).
Proof.
  apply (answer_while_loading_is_dropped answering "second"%string true).
  reflexivity.
Defined.

Lemma LF_is_newline : LF = String ContextFormat.newline EmptyString.
Proof. reflexivity. Qed.

(** The context of the specification, written out in characters. *)
Lemma context_from_indexed (ps : list PhotoEntry) (i : nat) :
  context_from i ps = ContextFormat.indexed_from i ps.
Proof.
  revert i; induction ps as [|p ps IH]; intros i;
    cbn [context_from ContextFormat.indexed_from].
  - reflexivity.
  - rewrite IH, LF_is_newline.
    cbn [append]. rewrite !string_app_assoc. cbn [append]. reflexivity.
Qed.

Lemma decimal_acc_string_of_uint (d : Decimal.uint) (acc : nat) :
  ContextFormat.decimal_acc (NilEmpty.string_of_uint d) acc
  = Some (Nat.of_uint_acc d acc).
Proof.
  revert acc; induction d as [|d IH|d IH|d IH|d IH|d IH|d IH|d IH|d IH|d IH|d IH];
    intros acc;
    cbn [NilEmpty.string_of_uint ContextFormat.decimal_acc
         ContextFormat.digit_value Nat.of_uint_acc];
    [reflexivity | rewrite IH, Nat.tail_mul_spec; do 2 f_equal; lia ..].
Qed.

(** The index is written as its decimal digits, without a leading zero. *)
Lemma number_to_string_decimal (i : nat) :
  ContextFormat.decimal_value (number_to_string i) = Some i /\
  ContextFormat.canonical (number_to_string i) = true.
Proof.
  unfold number_to_string.
  pose proof (DecimalNat.Unsigned.of_to i) as Hof.
  assert (Decimal.unorm (Nat.to_uint i) = Nat.to_uint i) as Hnorm.
  { rewrite <- (DecimalNat.Unsigned.to_of (Nat.to_uint i)), Hof. reflexivity. }
  assert (Nat.to_uint i <> Decimal.Nil) as Hnil.
  { rewrite <- Hnorm. apply DecimalFacts.unorm_nonnil. }
  split.
  - unfold ContextFormat.decimal_value.
    destruct (NilEmpty.string_of_uint (Nat.to_uint i)) eqn:E.
    + destruct (Nat.to_uint i); try discriminate E. congruence.
    + rewrite <- E, decimal_acc_string_of_uint. exact (f_equal Some Hof).
  - destruct (Nat.to_uint i) as [|d|d|d|d|d|d|d|d|d|d] eqn:E;
      try congruence; try (destruct d; reflexivity).
    rewrite DecimalFacts.unorm_D0 in Hnorm.
    destruct (Decimal.nzhead d) eqn:En;
      [ apply DecimalFacts.unorm_0 in En; rewrite En in Hnorm;
        injection Hnorm as <-; reflexivity
      | exfalso;
        rewrite DecimalFacts.unorm_nzhead in Hnorm by (rewrite En; discriminate);
        exact (DecimalFacts.nzhead_nonzero _ _ Hnorm) .. ].
Qed.

(** C5.  The loop of [answer] builds, for the photos in accumulation
    order, two line feeds, [Image #], the 0-based index in decimal
    digits, two line feeds and the description, one after the other;
    this string is the context handed to [llamaFind].  After
    [addPhoto([img1])] with description "a cat", [answer("what animal?")]
    passes the context LF LF "Image #0" LF LF "a cat"; with a second
    photo described as "a dog" the context goes on with
    LF LF "Image #1" LF LF "a dog". *)
Theorem answer_context_is_indexed_concatenation :
  (forall ps : list PhotoEntry,
      combine ps 0 EmptyString = ContextFormat.indexed_context ps) /\
  (forall i : nat,
      ContextFormat.decimal_value (number_to_string i) = Some i /\
      ContextFormat.canonical (number_to_string i) = true) /\
  (forall (w : World) (question : string),
      let w1 := exec (answer_locked question) w in
      trace w1 =
      trace w ++ [LlamaFind question
                    (ContextFormat.indexed_context (photos (agent w)))] /\
      suspended w1 = Some (AwaitLlamaFind question)) /\
  (forall img1 : bytes,
      exists w,
        run [CallAddPhoto [img1]; LockGrant; ImageDescriptionSettles (Some "a cat"%string);
             CallAnswer "what animal?" true; LockGrant] initial = Some w /\
        photos (agent w) = [mkPhoto img1 "a cat"] /\
        emitted (after [CallAddPhoto [img1]; LockGrant;
                        ImageDescriptionSettles (Some "a cat"%string);
                        CallAnswer "what animal?" true]) w =
        [LlamaFind "what animal?"
           (String "010" (String "010" "Image #0")
            ++ String "010" (String "010" "a cat"))%string]) /\
  (forall img1 img2 : bytes,
      exists w,
        run [CallAddPhoto [img1; img2]; LockGrant;
             ImageDescriptionSettles (Some "a cat"%string);
             ImageDescriptionSettles (Some "a dog"%string);
             CallAnswer "what animal?" true; LockGrant] initial = Some w /\
        photos (agent w) = [mkPhoto img1 "a cat"; mkPhoto img2 "a dog"] /\
        emitted (after [CallAddPhoto [img1; img2]; LockGrant;
                        ImageDescriptionSettles (Some "a cat"%string);
                        ImageDescriptionSettles (Some "a dog"%string);
                        CallAnswer "what animal?" true]) w =
        [LlamaFind "what animal?"
           (String "010" (String "010" "Image #0")
            ++ String "010" (String "010" "a cat")
            ++ String "010" (String "010" "Image #1")
            ++ String "010" (String "010" "a dog"))%string]) /\
  combine (map (mkPhoto []) ["a"; "b"; "c"; "d"; "e"; "f"; "g"; "h"; "i"; "j"; "k"]%string)
          9 EmptyString =
  (String "010" (String "010" "Image #9") ++ String "010" (String "010" "a")
   ++ String "010" (String "010" "Image #10") ++ String "010" (String "010" "b")
   ++ String "010" (String "010" "Image #11") ++ String "010" (String "010" "c")
   ++ String "010" (String "010" "Image #12") ++ String "010" (String "010" "d")
   ++ String "010" (String "010" "Image #13") ++ String "010" (String "010" "e")
   ++ String "010" (String "010" "Image #14") ++ String "010" (String "010" "f")
   ++ String "010" (String "010" "Image #15") ++ String "010" (String "010" "g")
   ++ String "010" (String "010" "Image #16") ++ String "010" (String "010" "h")
   ++ String "010" (String "010" "Image #17") ++ String "010" (String "010" "i")
   ++ String "010" (String "010" "Image #18") ++ String "010" (String "010" "j")
   ++ String "010" (String "010" "Image #19") ++ String "010" (String "010" "k"))%string.
Proof.
  repeat apply conj.
  - intros ps. unfold ContextFormat.indexed_context.
    rewrite combine_context_from. apply context_from_indexed.
  - apply number_to_string_decimal.
  - intros w question w1; subst w1.
    destruct w as [[l ps st sc] susp res tr]. run_method.
    rewrite combine_context_from.
    unfold ContextFormat.indexed_context. rewrite context_from_indexed.
    split; reflexivity.
  - intros img1.
    exists (after [CallAddPhoto [img1]; LockGrant;
                   ImageDescriptionSettles (Some "a cat"%string);
                   CallAnswer "what animal?"%string true; LockGrant]).
    split; [|split]; vm_compute; reflexivity.
  - intros img1 img2.
    exists (after [CallAddPhoto [img1; img2]; LockGrant;
                   ImageDescriptionSettles (Some "a cat"%string);
                   ImageDescriptionSettles (Some "a dog"%string);
                   CallAnswer "what animal?"%string true; LockGrant]).
    split; [|split]; vm_compute; reflexivity.
  - vm_compute; reflexivity.
Qed.

(** C6, against the claim as stated: a call dropped by the reentrancy
    guard has already triggered the audio; so the guard is not checked
    before the audio side effect. *)
Lemma dropped_answer_triggers_audio :
  loading (state (agent answering)) = true /\
  agent (exec (answer "second" true) answering) = agent answering /\
  emitted answering (exec (answer "second" true) answering) = [StartAudio true] /\
  ~ (forall (w : World) (question : string) (audio : bool),
        loading (state (agent w)) = true ->
        existsb is_audio (emitted w (exec (answer question audio) w)) = false).
Proof.
  repeat split.
  intros H.
  specialize (H answering "second"%string true eq_refl).
  discriminate H.
Qed.

(** C6, amended.  Every call of [answer] triggers the audio first, and
    exactly once: a call made while [loading] is true does that and
    nothing else, and a call that passes the guard sets [loading] and
    publishes it only after the audio. *)
Theorem answer_triggers_audio_before_guard (w : World) (question : string) (audio : bool) :
  let w1 := exec (answer question audio) w in
  trace w1 =
  trace w ++ StartAudio audio ::
    (if loading (state (agent w)) then []
     else [Notify (set_loading true (state (agent w)))]) /\
  List.length (filter is_audio (emitted w w1)) = 1%nat /\
  agent w1 =
  (if loading (state (agent w)) then agent w
   else mkAgent (AsyncLock.inLock (AnswerBody question) (lock (agent w)))
                (photos (agent w))
                (set_loading true (state (agent w)))
                (set_loading true (state (agent w)))).
Proof.
  intros w1; subst w1.
  destruct w as [[l ps st sc] susp res tr].
  unfold emitted. run_method.
  destruct (loading st) eqn:El; cbn;
    rewrite <- ?app_assoc, skipn_own_length; cbn; repeat split.
Qed.


(** C7, against the claim as stated: with one photo accumulated and the
    lock free, [clearPhotos] empties the photo list and resets the
    answer fields in a transition that is no part of a locked body and
    acquires no lock. *)
Lemma clearPhotos_mutates_without_lock :
  single_flight one_photo = true /\
  AsyncLock.running (lock (agent one_photo)) = false /\
  photos (agent one_photo) = [mkPhoto ["001"%byte] "a cat"] /\
  (exists w1, step CallClearPhotos one_photo = Some w1 /\
              photos (agent w1) = [] /\
              lock (agent w1) = lock (agent one_photo)) /\
  under_lock CallClearPhotos = false /\
  ~ (forall (l : Label) (w w1 : World),
        single_flight w = true ->
        step l w = Some w1 ->
        photos (agent w1) <> photos (agent w) ->
        under_lock l = true).
Proof.
  repeat split.
  - eexists; repeat split.
  - intros H.
    specialize (H CallClearPhotos one_photo _ eq_refl eq_refl).
    cbn in H. discriminate H. discriminate.
Qed.

(** C7, amended.  Apart from [clearPhotos], a transition that changes the
    photo list, [lastDescription] or [answer] is the continuation of the
    body that holds the lock; [loading] is changed only by a call of
    [answer] passing the guard and by the [finally] of the call in
    flight; [clearPhotos] empties the list and resets both fields
    without touching the lock, whether it is held or not. *)
Theorem mutations_under_lock_except_clearPhotos (l : Label) (w w1 : World) :
  single_flight w = true ->
  step l w = Some w1 ->
  (is_clear l = false ->
   photos (agent w1) <> photos (agent w) \/
   lastDescription (state (agent w1)) <> lastDescription (state (agent w)) \/
   AgentState.answer (state (agent w1)) <> AgentState.answer (state (agent w)) ->
   under_lock l = true /\
   AsyncLock.running (lock (agent w)) = true /\
   is_some (suspended w) = true) /\
  (loading (state (agent w1)) <> loading (state (agent w)) ->
   toggles_loading l = true) /\
  (is_clear l = true ->
   photos (agent w1) = [] /\
   lastDescription (state (agent w1)) = None /\
   AgentState.answer (state (agent w1)) = None /\
   lock (agent w1) = lock (agent w)).
Proof.
  rewrite single_flight_spec.
  destruct w as [[[busy q] ps st sc] susp res tr]; cbn.
  intros [_ Hb] Hs; subst busy.
  destruct l; cbn in Hs; cbn [is_clear under_lock toggles_loading].
  - injection Hs as <-. run_method.
    split; [discriminate|]. split; [congruence|]. repeat split.
  - injection Hs as <-. run_method.
    split; [intros _ [H|[H|H]]; congruence|]. split; [congruence|discriminate].
  - injection Hs as <-. run_method.
    split; [|split; [reflexivity|discriminate]].
    intros _. destruct (loading st); cbn; intros [H|[H|H]]; congruence.
  - unfold AsyncLock.start in Hs; cbn in Hs.
    destruct susp; [discriminate|]; cbn in Hs.
    destruct q as [|b q]; [discriminate|].
    injection Hs as <-.
    destruct b as [[|p rest]|question]; run_method;
      (split; [intros _ [H|[H|H]]; congruence|]);
      (split; [congruence|discriminate]).
  - destruct susp as [[p rest last|question]|]; try discriminate.
    injection Hs as <-.
    split; [intros _ _; repeat split|].
    split; [|discriminate].
    destruct r as [d|]; [destruct rest as [|p1 rest]|]; run_method;
      try congruence.
    destruct d; cbn; congruence.
  - destruct susp as [[p rest last|question]|]; try discriminate.
    injection Hs as <-.
    split; [intros _ _; repeat split|].
    split; [|discriminate].
    destruct r as [a|]; run_method; congruence.
  - destruct res as [|n]; [discriminate|].
    injection Hs as <-. run_method.
    split; [intros _ [H|[H|H]]; congruence|]. split; [reflexivity|discriminate].
Qed.

Lemma mutations_under_lock_except_clearPhotos_witness :
  let w := after [CallAddPhoto [["001"%byte]]; LockGrant] in
  let w1 := after [CallAddPhoto [["001"%byte]]; LockGrant;
                   ImageDescriptionSettles (Some "a cat"%string)] in
  let l := ImageDescriptionSettles (Some "a cat"%string) in
  (is_clear l = false ->
   photos (agent w1) <> photos (agent w) \/
   lastDescription (state (agent w1)) <> lastDescription (state (agent w)) \/
   AgentState.answer (state (agent w1)) <> AgentState.answer (state (agent w)) ->
   under_lock l = true /\
   AsyncLock.running (lock (agent w)) = true /\
   is_some (suspended w) = true) /\
  (loading (state (agent w1)) <> loading (state (agent w)) ->
   toggles_loading l = true) /\
  (is_clear l = true ->
   photos (agent w1) = [] /\
   lastDescription (state (agent w1)) = None /\
   AgentState.answer (state (agent w1)) = None /\
   lock (agent w1) = lock (agent w)).
Proof.
  apply (mutations_under_lock_except_clearPhotos
           (ImageDescriptionSettles (Some "a cat"%string))
           (after [CallAddPhoto [["001"%byte]]; LockGrant])
           (after [CallAddPhoto [["001"%byte]]; LockGrant;
                   ImageDescriptionSettles (Some "a cat"%string)])).
  - vm_compute; reflexivity.
  - vm_compute; reflexivity.
Defined.

(** C10.  [clearPhotos] empties the photo list, resets [lastDescription]
    and [answer] to absent, keeps [loading], the lock and the suspended
    calls as they were, and publishes once; a second call leaves the
    agent as the first one left it. *)
Theorem clearPhotos_resets_and_publishes_once (w : World) :
  let w1 := exec clearPhotos w in
  photos (agent w1) = [] /\
  state (agent w1) = mk None None (loading (state (agent w))) /\
  stateCopy (agent w1) = state (agent w1) /\
  lock (agent w1) = lock (agent w) /\
  suspended w1 = suspended w /\
  resuming w1 = resuming w /\
  trace w1 = trace w ++ [Notify (state (agent w1))] /\
  List.length (filter is_notify (emitted w w1)) = 1%nat /\
  agent (exec clearPhotos w1) = agent w1.
Proof.
  intros w1; subst w1.
  destruct w as [[l ps st sc] susp res tr].
  unfold emitted. run_method.
  rewrite skipn_own_length.
  repeat split.
Qed.

End AgentPipeline.

(* ================================================================== *)
(** ** More on the chunk reassembler *)

Section ReassemblyStreams.

Import DeviceView ReassemblyProps.

Lemma images_app (o1 o2 : list Effect) :
  images (o1 ++ o2) = images o1 ++ images o2.
Proof.
  induction o1 as [|[b|i p] o1 IH]; simpl; [reflexivity | now rewrite IH | exact IH].
Qed.

Lemma numbered_app (k : Z) (ps qs : list bytes) :
  numbered k (ps ++ qs) =
  numbered k ps ++ numbered (k + Z.of_nat (List.length ps)) qs.
Proof.
  revert k; induction ps as [|p ps IH]; intros k;
    cbn [numbered app List.length].
  - now rewrite Z.add_0_r.
  - rewrite IH.
    replace (k + Z.of_nat (S (List.length ps)))
      with (k + 1 + Z.of_nat (List.length ps)) by lia.
    reflexivity.
Qed.

(** One chunk keeps the reassembler in step with the stream, and an
    image comes out only at the terminator of an open transfer. *)
Lemma onChunk_tracks (delivered : list Chunk) (id : option Z) (data : bytes)
  (r : Reassembler) :
  tracks delivered r ->
  tracks (delivered ++ [(id, data)]) (fst (onChunk id data r)) /\
  forall image, In image (images (snd (onChunk id data r))) ->
    id = None /\
    exists before payloads,
      payloads <> [] /\ delivered = before ++ numbered 0 payloads /\
      image = List.concat payloads.
Proof.
  intros Ht. unfold onChunk.
  destruct (Z.eqb_spec (previousChunk r) (-1)) as [Hi|Hi].
  - destruct id as [i|]; [destruct (Z.eqb_spec i 0) as [->|]|]; simpl;
      (split; [|intros image []]); try (left; exact Hi).
    right. exists delivered, [data]. repeat split.
    + discriminate.
    + simpl. now rewrite app_nil_r.
  - destruct Ht as [Ht|(before & payloads & Hne & Hd & Hp & Hb)]; [contradiction|].
    destruct id as [i|].
    + destruct (Z.eqb_spec i (previousChunk r + 1)) as [->|]; simpl;
        (split; [|intros image []]); [|left; reflexivity].
      right. exists before, (payloads ++ [data]). repeat split.
      * destruct payloads; discriminate.
      * rewrite numbered_app, app_assoc, <- Hd. cbn [numbered].
        replace (previousChunk r + 1)
          with (0 + Z.of_nat (List.length payloads)) by lia.
        reflexivity.
      * simpl. rewrite length_app. simpl. lia.
      * simpl. rewrite concat_app, Hb. simpl. now rewrite app_nil_r.
    + simpl. split; [left; reflexivity|].
      intros image [<-|[]]. split; [reflexivity|].
      exists before, payloads. repeat split; assumption.
Qed.

Lemma onChunks_tracks (cs : list Chunk) (delivered : list Chunk) (r : Reassembler) :
  tracks delivered r ->
  tracks (delivered ++ cs) (fst (onChunks cs r)) /\
  forall image, In image (images (snd (onChunks cs r))) ->
    carried_by (delivered ++ cs) image.
Proof.
  revert delivered r; induction cs as [|[id data] cs IH]; intros delivered r Ht.
  - simpl. rewrite app_nil_r. split; [exact Ht | intros image []].
  - simpl.
    destruct (onChunk_tracks delivered id data r Ht) as [Ht1 Him1].
    destruct (onChunk id data r) as [r1 o1]; simpl in Ht1, Him1.
    destruct (IH (delivered ++ [(id, data)]) r1 Ht1) as [Ht2 Him2].
    destruct (onChunks cs r1) as [r2 o2]; simpl in Ht2, Him2 |- *.
    rewrite <- app_assoc in Ht2, Him2. simpl in Ht2, Him2.
    split; [exact Ht2|].
    intros image Hin. rewrite images_app in Hin.
    apply in_app_or in Hin as [Hin|Hin]; [|now apply Him2].
    destruct (Him1 image Hin) as (-> & before & payloads & Hne & Hd & Himg).
    exists before, payloads, data, cs. repeat split; try assumption.
    rewrite Hd, <- app_assoc. reflexivity.
Qed.

(** X1.  Whatever the stream delivered to an idle reassembler, every
    image it emits is the concatenation of the payloads of chunks
    0, 1, ..., n-1 (n >= 1) that stand in a row in the stream and are
    directly followed by a terminator: no partial and no spliced image. *)
Theorem emitted_images_are_complete_transfers
  (cs : list Chunk) (r : Reassembler) (image : bytes) :
  idle r ->
  In image (images (snd (onChunks cs r))) ->
  carried_by cs image.
Proof.
  intros Hr Hin.
  destruct (onChunks_tracks cs [] r (or_introl Hr)) as [_ H].
  exact (H image Hin).
Qed.

Lemma emitted_images_are_complete_transfers_witness :
  carried_by
    [(Some 0, list_byte_of_string "X"); (Some 2, list_byte_of_string "Y");
     (Some 0, list_byte_of_string "Z"); (None, [])]
    (list_byte_of_string "Z").
Proof.
  apply (emitted_images_are_complete_transfers
           [(Some 0, list_byte_of_string "X"); (Some 2, list_byte_of_string "Y");
            (Some 0, list_byte_of_string "Z"); (None, [])]
           initial (list_byte_of_string "Z")).
  - reflexivity.
  - simpl. left. reflexivity.
Defined.


Lemma images_bounded (cs : list Chunk) (r : Reassembler) :
  (List.length (images (snd (onChunks cs r)))
   <= List.length (filter is_terminator cs))%nat /\
  (List.length (images (snd (onChunks cs r)))
   <= (if (previousChunk r =? -1)%Z then 0 else 1)
      + List.length (filter is_start cs))%nat.
Proof.
  revert r; induction cs as [|[id data] cs IH]; intros r.
  - simpl. split; [lia | destruct (previousChunk r =? -1); lia].
  - cbn [onChunks].
    destruct (onChunk id data r) as [r1 o1] eqn:E1.
    specialize (IH r1).
    destruct (onChunks cs r1) as [r2 o2]. cbn [snd] in IH |- *.
    rewrite images_app, length_app.
    unfold onChunk in E1.
    destruct (previousChunk r =? -1) eqn:Ei;
      destruct id as [i|]; cbn [filter is_terminator is_start fst].
    + destruct (i =? 0) eqn:E0; injection E1 as <- <-; cbn in IH |- *;
        [|rewrite Ei in IH]; lia.
    + injection E1 as <- <-. rewrite Ei in IH. cbn. lia.
    + destruct (negb (i =? previousChunk r + 1)) eqn:En;
        injection E1 as <- <-; cbn [previousChunk] in IH.
      * cbn in IH |- *. destruct (i =? 0); cbn; lia.
      * destruct (i =? -1); destruct (i =? 0); cbn in IH |- *; lia.
    + injection E1 as <- <-. cbn in IH |- *. lia.
Qed.

(** X2.  From the idle state, a stream yields at most one image per
    terminator and at most one per chunk 0. *)
Theorem one_image_per_transfer_at_most (cs : list Chunk) (r : Reassembler) :
  idle r ->
  (List.length (images (snd (onChunks cs r)))
   <= Nat.min (List.length (filter is_terminator cs))
              (List.length (filter is_start cs)))%nat.
Proof.
  unfold idle; intros Hr.
  destruct (images_bounded cs r) as [H1 H2].
  rewrite Hr in H2; cbn in H2. lia.
Qed.

Lemma one_image_per_transfer_at_most_witness :
  let cs : list Chunk := [(Some 0, []); (None, []); (None, []); (Some 0, [])] in
  (List.length (images (snd (onChunks cs initial)))
   <= Nat.min (List.length (filter is_terminator cs))
              (List.length (filter is_start cs)))%nat.
Proof.
  apply (one_image_per_transfer_at_most
           [(Some 0, []); (None, []); (None, []); (Some 0, [])] initial).
  reflexivity.
Defined.

Lemma numbered_strays (k : Z) (ps : list bytes) :
  0 < k -> forallb stray (numbered k ps) = true.
Proof.
  revert k; induction ps as [|p ps IH]; intros k Hk; simpl.
  - reflexivity.
  - rewrite IH by lia. unfold stray; simpl.
    destruct (Z.eqb_spec k 0); [lia | reflexivity].
Qed.

(** X3.  A chunk 0 that arrives in the middle of a transfer does not
    start a new one: it only resets the reassembler, so the transfer it
    opens is dropped as well, down to its terminator, and nothing is
    emitted for either. *)
Theorem restart_mid_transfer_loses_both
  (interrupted fresh : list bytes) (terminator : bytes) (r : Reassembler) :
  idle r ->
  interrupted <> [] ->
  fresh <> [] ->
  let '(r1, out) :=
    onChunks (numbered 0 interrupted ++ numbered 0 fresh ++ [(None, terminator)]) r in
  images out = [] /\ idle r1.
Proof.
  intros Hr Hi Hf.
  destruct interrupted as [|p ps]; [congruence|].
  destruct fresh as [|q qs]; [congruence|].
  rewrite onChunks_app, transfer_in_order by assumption.
  cbn [numbered app onChunks].
  rewrite gap_resets.
  - rewrite strays_ignored.
    + split; reflexivity.
    + reflexivity.
    + rewrite forallb_app, numbered_strays by lia. reflexivity.
  - unfold idle; cbn; lia.
  - cbn; lia.
Qed.

Lemma restart_mid_transfer_loses_both_witness :
  let '(r1, out) :=
    onChunks (numbered 0 [list_byte_of_string "AB"]
              ++ numbered 0 [list_byte_of_string "CD"; list_byte_of_string "EF"]
              ++ [(None, [])]) initial in
  images out = [] /\ idle r1.
Proof.
  apply (restart_mid_transfer_loses_both
           [list_byte_of_string "AB"]
           [list_byte_of_string "CD"; list_byte_of_string "EF"] [] initial).
  - reflexivity.
  - discriminate.
  - discriminate.
Defined.

End ReassemblyStreams.

(* ================================================================== *)
(** ** The notification listener *)

Section NotificationListener.

Import DeviceView Framing.

Lemma byte_value_to_byte (z : Z) : 0 <= z < 256 -> byte_value (to_byte z) = z.
Proof.
  intros Hz. unfold byte_value, to_byte.
  destruct (Byte.of_N (Z.to_N z)) as [b|] eqn:E.
  - apply Byte.to_of_N in E. rewrite E. lia.
  - apply Byte.of_N_None_iff in E. lia.
Qed.

Lemma le16_decodes (id : Z) :
  0 <= id < 65536 ->
  byte_value (to_byte (id mod 256)) = id mod 256 /\
  byte_value (to_byte (id / 256)) = id / 256 /\
  id mod 256 + Z.shiftl (id / 256) 8 = id /\
  (id mod 256 = 255 /\ id / 256 = 255 <-> id = 65535).
Proof.
  intros Hid.
  pose proof (Z.mod_pos_bound id 256 ltac:(lia)) as Hm.
  assert (0 <= id / 256 < 256) as Hd.
  { split; [apply Z.div_pos; lia | apply Z.div_lt_upper_bound; lia]. }
  pose proof (Z.div_mod id 256 ltac:(lia)) as He.
  rewrite !byte_value_to_byte by assumption.
  rewrite Z.shiftl_mul_pow2 by lia.
  change (2 ^ 8) with 256.
  repeat split; try lia.
Qed.

(** The listener on a framed notification. *)
Lemma listener_on_frame (id : Z) (payload : bytes) (r : Reassembler) :
  0 <= id < 65536 ->
  characteristicvaluechanged (le16 id ++ payload) r =
  Some (if id =? 65535 then onChunk None [] r else onChunk (Some id) payload r).
Proof.
  intros Hid.
  destruct (le16_decodes id Hid) as (H0 & H1 & He & H255).
  unfold le16; cbn [app characteristicvaluechanged].
  rewrite H0, H1, He.
  destruct (Z.eqb_spec id 65535) as [->|Hne].
  - reflexivity.
  - destruct (Z.eqb_spec (id mod 256) 255) as [E0|]; [|reflexivity].
    destruct (Z.eqb_spec (id / 256) 255) as [E1|]; [|reflexivity].
    exfalso. apply Hne. apply H255. split; assumption.
Qed.

Lemma to_byte_byte_value (b : byte) : to_byte (byte_value b) = b.
Proof.
  unfold to_byte, byte_value. rewrite N2Z.id, Byte.of_to_N. reflexivity.
Qed.

Lemma byte_value_range (b : byte) : 0 <= byte_value b < 256.
Proof.
  unfold byte_value. pose proof (Byte.to_N_bounded b). lia.
Qed.

(** X4.  A notification of two bytes or more reaches [onChunk] either
    as the terminator, with an empty payload, exactly when its first two
    bytes are both [ff]; or with the rest of the bytes as payload and an
    id between 0 and 65534 whose low byte is the first byte and whose
    high byte is the second.  The id 65535 never reaches [onChunk]. *)
Theorem listener_decodes_header (b0 b1 : byte) (packet : bytes) (r : Reassembler) :
  (b0 = "255"%byte /\ b1 = "255"%byte /\
   characteristicvaluechanged (b0 :: b1 :: packet) r = Some (onChunk None [] r))
  \/
  (exists id,
      0 <= id < 65535 /\ le16 id = [b0; b1] /\
      characteristicvaluechanged (b0 :: b1 :: packet) r
      = Some (onChunk (Some id) packet r)).
Proof.
  pose proof (byte_value_range b0) as H0.
  pose proof (byte_value_range b1) as H1.
  cbn [characteristicvaluechanged].
  rewrite Z.shiftl_mul_pow2 by lia. change (2 ^ 8) with 256.
  destruct (Z.eqb_spec (byte_value b0) 255) as [E0|E0];
    [destruct (Z.eqb_spec (byte_value b1) 255) as [E1|E1]|]; cbn [andb].
  - left. repeat split.
    + rewrite <- (to_byte_byte_value b0), E0. reflexivity.
    + rewrite <- (to_byte_byte_value b1), E1. reflexivity.
  - right. exists (byte_value b0 + byte_value b1 * 256). repeat split; try lia.
    unfold le16.
    replace ((byte_value b0 + byte_value b1 * 256) mod 256) with (byte_value b0)
      by (rewrite Z.mod_add by lia; symmetry; apply Z.mod_small; lia).
    replace ((byte_value b0 + byte_value b1 * 256) / 256) with (byte_value b1)
      by (rewrite Z.div_add by lia; rewrite Z.div_small by lia; lia).
    now rewrite !to_byte_byte_value.
  - right. exists (byte_value b0 + byte_value b1 * 256). repeat split; try lia.
    unfold le16.
    replace ((byte_value b0 + byte_value b1 * 256) mod 256) with (byte_value b0)
      by (rewrite Z.mod_add by lia; symmetry; apply Z.mod_small; lia).
    replace ((byte_value b0 + byte_value b1 * 256) / 256) with (byte_value b1)
      by (rewrite Z.div_add by lia; rewrite Z.div_small by lia; lia).
    now rewrite !to_byte_byte_value.
Qed.

Lemma notifications_app (ns1 ns2 : list bytes) (r : Reassembler) :
  notifications (ns1 ++ ns2) r =
  match notifications ns1 r with
  | None => None
  | Some (r1, out1) =>
      match notifications ns2 r1 with
      | None => None
      | Some (r2, out2) => Some (r2, out1 ++ out2)
      end
  end.
Proof.
  revert r; induction ns1 as [|n ns1 IH]; intros r; cbn [app notifications].
  - destruct (notifications ns2 r) as [[r2 out2]|]; reflexivity.
  - destruct (characteristicvaluechanged n r) as [[r1 o1]|]; [|reflexivity].
    rewrite IH.
    destruct (notifications ns1 r1) as [[r2 o2]|]; [|reflexivity].
    destruct (notifications ns2 r2) as [[r3 o3]|]; [|reflexivity].
    now rewrite app_assoc.
Qed.

(** Framed chunks whose ids stay below 65535 are handled as the chunks
    they frame. *)
Lemma frames_as_chunks (payloads : list bytes) (k : Z) (r : Reassembler) :
  0 <= k ->
  k + Z.of_nat (List.length payloads) <= 65535 ->
  notifications (frames k payloads) r = Some (onChunks (numbered k payloads) r).
Proof.
  revert k r; induction payloads as [|p ps IH]; intros k r Hk Hn;
    cbn [frames numbered notifications onChunks List.length] in *.
  - reflexivity.
  - rewrite listener_on_frame by lia.
    destruct (Z.eqb_spec k 65535); [lia|].
    destruct (onChunk (Some k) p r) as [r1 o1].
    rewrite IH by lia.
    destruct (onChunks (numbered (k + 1) ps) r1) as [r2 o2]. reflexivity.
Qed.

(** X5.  An image sent as 1 to 65535 framed chunks, numbered from 0,
    and closed by a notification that starts with [ff ff], comes out of
    the listener as exactly one image, the concatenation of the
    payloads; the reassembler is idle again. *)
Theorem framed_transfer_emits_image
  (payloads : list bytes) (trailer : bytes) (r : Reassembler) :
  idle r ->
  payloads <> [] ->
  Z.of_nat (List.length payloads) <= 65535 ->
  exists r1,
    notifications (frames 0 payloads ++ [["255"%byte; "255"%byte] ++ trailer]) r =
    Some (r1, [PhotoReceived (List.concat payloads)]) /\ idle r1.
Proof.
  intros Hr Hne Hlen.
  destruct payloads as [|p ps]; [congruence|].
  rewrite notifications_app, frames_as_chunks by lia.
  rewrite transfer_in_order by assumption.
  cbn -[List.concat].
  unfold onChunk; cbn [previousChunk buffer].
  destruct (Z.eqb_spec (Z.of_nat (List.length ps)) (-1)); [lia|].
  eexists; split; reflexivity.
Qed.

Lemma framed_transfer_emits_image_witness :
  exists r1,
    notifications
      (frames 0 [list_byte_of_string "AB"; list_byte_of_string "CD"]
       ++ [["255"%byte; "255"%byte] ++ []]) initial =
    Some (r1, [PhotoReceived (list_byte_of_string "ABCD")]) /\ idle r1.
Proof.
  apply (framed_transfer_emits_image
           [list_byte_of_string "AB"; list_byte_of_string "CD"] [] initial).
  - reflexivity.
  - discriminate.
  - simpl; lia.
Defined.

End NotificationListener.

(* ================================================================== *)
(** ** More on the capture trigger *)

Section CaptureCycle.

Import DeviceView.Capture CaptureProps.

Lemma step_armed (i : Input) (c c1 : Controller) (out : list Effect) :
  consistent c -> armed c -> step i c = Some (c1, out) -> armed c1.
Proof.
  unfold armed; intros Hc [Hctl Hd] Hs.
  destruct i; simpl in Hs.
  - injection Hs as <- _; simpl. split; [reflexivity | assumption].
  - unfold takePhoto in Hs.
    destruct (photoControlCharRef c && negb (isCapturing c)) eqn:E;
      injection Hs as <- _; simpl; [|split; assumption].
    apply andb_prop in E as [E _]. split; [intros _; exact E | assumption].
  - destruct (writing c) as [|n] eqn:Ew; [discriminate|].
    unfold takePhoto_settled in Hs.
    destruct ok; injection Hs as <- _; simpl.
    + split; [assumption|].
      apply Forall_app; split; [|repeat constructor; lia].
      exact Hd.
    + split; [discriminate | assumption].
  - destruct (Z.leb_spec 0 ms); [|discriminate].
    injection Hs as <- _; simpl. split; [assumption|].
    eapply Forall_impl; [|exact Hd]. simpl; intros; lia.
  - destruct (timers c) as [|deadline rest] eqn:Et; [discriminate|].
    destruct (deadline <=? now c); [|discriminate].
    injection Hs as <- _; simpl. split; [discriminate|].
    now inversion Hd.
Qed.

Lemma run_armed (inputs : list Input) (c c1 : Controller) (out : list Effect) :
  consistent c -> armed c -> run inputs c = Some (c1, out) -> armed c1.
Proof.
  revert c out; induction inputs as [|i rest IH]; intros c out Hc Ha Hr;
    simpl in Hr.
  - injection Hr as <- _; exact Ha.
  - destruct (step i c) as [[c2 o2]|] eqn:Es; [|discriminate].
    destruct (run rest c2) as [[c3 o3]|] eqn:Er; [|discriminate].
    injection Hr as <- _.
    eapply IH; [| |eassumption].
    + eapply step_consistent; eassumption.
    + eapply step_armed; eassumption.
Qed.

Lemma initial_armed : armed initial.
Proof. split; [discriminate | constructor]. Qed.

(** X6.  In every state the controller reaches, [isCapturing] tells
    exactly whether one capture command is unsettled or one cooldown
    timer is pending, and there is never more than one of the two. *)
Theorem isCapturing_counts_the_capture_in_progress
  (history : list Input) (c : Controller) (out : list Effect) :
  run history initial = Some (c, out) ->
  (writing c + List.length (timers c))%nat = (if isCapturing c then 1 else 0)%nat.
Proof.
  intros Hr.
  destruct (run_consistent _ _ _ _ initial_consistent Hr)
    as [[-> H]|(-> & Hw & Ht)]; [exact H|].
  rewrite Hw, Ht; reflexivity.
Qed.

Lemma isCapturing_counts_the_capture_in_progress_witness :
  let c := mkController true true 0 0 [2000] in
  (writing c + List.length (timers c))%nat = (if isCapturing c then 1 else 0)%nat.
Proof.
  apply (isCapturing_counts_the_capture_in_progress
           [ControlFound; Press; WriteSettled true]
           (mkController true true 0 0 [2000])
           [WriteValue ["001"%byte]; CommandSent]).
  reflexivity.
Defined.

(** X7.  Until the control characteristic has been found, no press
    writes anything, however often and whenever it is made. *)
Theorem no_write_before_control_found
  (history : list Input) (c : Controller) (out : list Effect) :
  existsb is_control_found history = false ->
  run history initial = Some (c, out) ->
  existsb is_write out = false /\ photoControlCharRef c = false /\
  isCapturing c = false.
Proof.
  assert (forall inputs c0 c1 o,
             photoControlCharRef c0 = false -> isCapturing c0 = false ->
             existsb is_control_found inputs = false ->
             run inputs c0 = Some (c1, o) ->
             existsb is_write o = false /\ photoControlCharRef c1 = false /\
             isCapturing c1 = false) as H.
  { induction inputs as [|i rest IH]; intros c0 c1 o Hp Hi Hn Hr; simpl in Hr, Hn.
    - injection Hr as <- <-. repeat split; assumption.
    - apply orb_false_elim in Hn as [Hn1 Hn2].
      destruct (step i c0) as [[c2 o2]|] eqn:Es; [|discriminate].
      destruct (run rest c2) as [[c3 o3]|] eqn:Er; [|discriminate].
      injection Hr as <- <-.
      assert (existsb is_write o2 = false /\ photoControlCharRef c2 = false /\
              isCapturing c2 = false) as (Ho & Hp2 & Hi2).
      { destruct i; simpl in Es; try discriminate.
        - unfold takePhoto in Es. rewrite Hp in Es. simpl in Es.
          injection Es as <- <-. repeat split; assumption.
        - destruct (writing c0); [discriminate|].
          unfold takePhoto_settled in Es.
          destruct ok; injection Es as <- <-; repeat split; assumption.
        - destruct (0 <=? ms); [|discriminate].
          injection Es as <- <-. repeat split; assumption.
        - destruct (timers c0) as [|d t]; [discriminate|].
          destruct (d <=? now c0); [|discriminate].
          injection Es as <- <-. repeat split; assumption. }
      destruct (IH c2 c3 o3 Hp2 Hi2 Hn2 Er) as (Ho3 & Hp3 & Hi3).
      rewrite existsb_app, Ho, Ho3. repeat split; assumption. }
  intros Hn Hr. exact (H history initial c out eq_refl eq_refl Hn Hr).
Qed.

Lemma no_write_before_control_found_witness :
  existsb is_write [NotAvailableOrCapturing; NotAvailableOrCapturing] = false /\
  photoControlCharRef (mkController false false 0 5 []) = false /\
  isCapturing (mkController false false 0 5 []) = false.
Proof.
  apply (no_write_before_control_found
           [Press; Elapse 5; Press]
           (mkController false false 0 5 [])
           [NotAvailableOrCapturing; NotAvailableOrCapturing]).
  - reflexivity.
  - reflexivity.
Defined.


Lemma step_clock (i : Input) (c c1 : Controller) (out : list Effect) :
  step i c = Some (c1, out) -> now c <= now c1.
Proof.
  intros Hs. destruct i; simpl in Hs.
  - injection Hs as <- _; simpl; lia.
  - unfold takePhoto in Hs.
    destruct (photoControlCharRef c && negb (isCapturing c));
      injection Hs as <- _; simpl; lia.
  - destruct (writing c); [discriminate|].
    unfold takePhoto_settled in Hs.
    destruct ok; injection Hs as <- _; simpl; lia.
  - destruct (Z.leb_spec 0 ms); [|discriminate].
    injection Hs as <- _; simpl; lia.
  - destruct (timers c) as [|d t]; [discriminate|].
    destruct (d <=? now c); [|discriminate].
    injection Hs as <- _; simpl; lia.
Qed.

Lemma step_cooled (deadline : Z) (i : Input) (c c1 : Controller) (out : list Effect) :
  consistent c -> cooled deadline c -> step i c = Some (c1, out) ->
  cooled deadline c1.
Proof.
  unfold cooled; intros Hc Hq Hs.
  pose proof (step_clock _ _ _ _ Hs) as Hclock.
  destruct Hq as [Ht|Hd]; [|right; lia].
  destruct Hc as [[Hi Hn]|(_ & _ & Hnil)]; [|congruence].
  rewrite Ht in Hn; simpl in Hn.
  destruct i; simpl in Hs.
  - injection Hs as <- _; left; exact Ht.
  - unfold takePhoto in Hs. rewrite Hi, andb_false_r in Hs.
    injection Hs as <- _; left; exact Ht.
  - destruct (writing c); [discriminate | lia].
  - destruct (0 <=? ms); [|discriminate].
    injection Hs as <- _; left; exact Ht.
  - rewrite Ht in Hs.
    destruct (Z.leb_spec deadline (now c)); [|discriminate].
    right; lia.
Qed.

Lemma run_cooled (deadline : Z) (inputs : list Input) (c c1 : Controller)
  (out : list Effect) :
  consistent c -> cooled deadline c -> run inputs c = Some (c1, out) ->
  consistent c1 /\ cooled deadline c1.
Proof.
  revert c out; induction inputs as [|i rest IH]; intros c out Hc Hq Hr;
    simpl in Hr.
  - injection Hr as <- _; split; assumption.
  - destruct (step i c) as [[c2 o2]|] eqn:Es; [|discriminate].
    destruct (run rest c2) as [[c3 o3]|] eqn:Er; [|discriminate].
    injection Hr as <- _.
    eapply IH; [| |eassumption].
    + eapply step_consistent; eassumption.
    + eapply step_cooled; eassumption.
Qed.

(** X8.  Once a capture command has been sent (its [writeValue]
    resolved), no press writes another one before 2000 ms have passed on
    the clock, whatever happens in between. *)
Theorem captures_are_2000_ms_apart
  (history later : list Input) (c c1 c2 : Controller) (out out1 out2 : list Effect) :
  run history initial = Some (c, out) ->
  step (WriteSettled true) c = Some (c1, out1) ->
  run later c1 = Some (c2, out2) ->
  existsb is_write (snd (takePhoto c2)) = true ->
  now c + 2000 <= now c2.
Proof.
  intros Hh Hs Hl Hw.
  pose proof (run_consistent _ _ _ _ initial_consistent Hh) as Hc.
  pose proof (step_consistent _ _ _ _ Hc Hs) as Hc1.
  assert (cooled (now c + 2000) c1) as Hq.
  { simpl in Hs. destruct (writing c) as [|n] eqn:Ew; [discriminate|].
    unfold takePhoto_settled in Hs. injection Hs as <- _.
    destruct Hc as [[_ Hn]|(_ & Hw0 & _)]; [|congruence].
    left; simpl.
    destruct (timers c); [reflexivity | simpl in Hn; lia]. }
  destruct (run_cooled _ _ _ _ _ Hc1 Hq Hl) as [Hc2 [Ht|Hd]]; [|exact Hd].
  exfalso.
  destruct Hc2 as [[Hi _]|(_ & _ & Hnil)]; [|congruence].
  unfold takePhoto in Hw. rewrite Hi, andb_false_r in Hw. discriminate.
Qed.

Lemma captures_are_2000_ms_apart_witness :
  now (mkController true true 1 0 []) + 2000 <=
  now (mkController true false 0 2500 []).
Proof.
  apply (captures_are_2000_ms_apart
           [ControlFound; Press] [Elapse 2500; TimerFires]
           (mkController true true 1 0 [])
           (mkController true true 0 0 [2000])
           (mkController true false 0 2500 [])
           [WriteValue ["001"%byte]] [CommandSent] []).
  - reflexivity.
  - reflexivity.
  - reflexivity.
  - reflexivity.
Defined.

(** X9.  When the [writeValue] of a capture command rejects, the error
    is logged and capturing is possible again at once: the next press
    writes a command, with no cooldown in between. *)
Theorem failed_write_allows_immediate_retry
  (history : list Input) (c : Controller) (out : list Effect) :
  run history initial = Some (c, out) ->
  writing c <> O ->
  exists c1,
    run [WriteSettled false; Press] c =
    Some (c1, [SendError; WriteValue ["001"%byte]]) /\
    isCapturing c1 = true /\ timers c1 = [] /\ now c1 = now c.
Proof.
  intros Hh Hw.
  pose proof (run_consistent _ _ _ _ initial_consistent Hh) as Hc.
  pose proof (run_armed _ _ _ _ initial_consistent initial_armed Hh) as [Hctl _].
  destruct Hc as [[Hi Hn]|(_ & Hw0 & _)]; [|congruence].
  specialize (Hctl Hi).
  destruct c as [ctl cap w t ts]; simpl in *. subst ctl cap.
  destruct w as [|w]; [congruence|].
  destruct ts; [|simpl in Hn; lia].
  assert (w = O) as -> by lia.
  eexists; split; [reflexivity|]. repeat split.
Qed.

Lemma failed_write_allows_immediate_retry_witness :
  exists c1,
    run [WriteSettled false; Press] (mkController true true 1 0 []) =
    Some (c1, [SendError; WriteValue ["001"%byte]]) /\
    isCapturing c1 = true /\ timers c1 = [] /\
    now c1 = now (mkController true true 1 0 []).
Proof.
  apply (failed_write_allows_immediate_retry
           [ControlFound; Press]
           (mkController true true 1 0 [])
           [WriteValue ["001"%byte]]).
  - reflexivity.
  - discriminate.
Defined.

(** X10.  A cooldown never lasts: from any state with a cooldown timer
    pending, 2000 ms later the timer can run, and the press after it
    writes a capture command again. *)
Theorem capture_available_after_cooldown
  (history : list Input) (c : Controller) (out : list Effect) :
  run history initial = Some (c, out) ->
  timers c <> [] ->
  exists c1,
    run [Elapse 2000; TimerFires; Press] c =
    Some (c1, [WriteValue ["001"%byte]]) /\
    now c1 = now c + 2000.
Proof.
  intros Hh Ht.
  pose proof (run_consistent _ _ _ _ initial_consistent Hh) as Hc.
  pose proof (run_armed _ _ _ _ initial_consistent initial_armed Hh) as [Hctl Hd].
  destruct Hc as [[Hi Hn]|(_ & _ & Hnil)]; [|congruence].
  specialize (Hctl Hi).
  destruct c as [ctl cap w t ts]; simpl in *. subst ctl cap.
  destruct ts as [|d ts]; [congruence|].
  destruct ts; [|simpl in Hn; lia].
  assert (w = O) as -> by (simpl in Hn; lia).
  inversion Hd as [|? ? Hd1 _]; subst.
  cbn [run step timers now isCapturing photoControlCharRef writing].
  change (0 <=? 2000) with true. cbn iota.
  destruct (Z.leb_spec d (t + 2000)); [|lia].
  eexists; split; reflexivity.
Qed.

Lemma capture_available_after_cooldown_witness :
  exists c1,
    run [Elapse 2000; TimerFires; Press] (mkController true true 0 0 [2000]) =
    Some (c1, [WriteValue ["001"%byte]]) /\
    now c1 = now (mkController true true 0 0 [2000]) + 2000.
Proof.
  apply (capture_available_after_cooldown
           [ControlFound; Press; WriteSettled true]
           (mkController true true 0 0 [2000])
           [WriteValue ["001"%byte]; CommandSent]).
  - reflexivity.
  - discriminate.
Defined.

End CaptureCycle.

(* ================================================================== *)
(** ** The flow of photos through the agent *)

Section PhotoFlow.

Import AgentState Agent AgentProps AgentFlow.

Ltac reduce_agent :=
  cbv [exec clearPhotos addPhoto answer answer_locked answer_locked_resume
       answer_finally addPhoto_resume addPhoto_loop start_body notify
       clear_suspended set_lock set_photos set_state set_stateCopy
       set_resuming modify gets emit suspend bind ret step
       AsyncLock.start AsyncLock.finish AsyncLock.inLock
       agent suspended resuming trace lock photos state stateCopy
       AsyncLock.running AsyncLock.queue snd fst];
  cbn.

Ltac reduce_step :=
  match goal with
  | |- context [step ?l ?w] =>
      let x := eval cbv [exec clearPhotos addPhoto answer answer_locked
                         answer_locked_resume answer_finally addPhoto_resume
                         addPhoto_loop start_body notify clear_suspended
                         set_lock set_photos set_state set_stateCopy
                         set_resuming modify gets emit suspend bind ret step
                         AsyncLock.start AsyncLock.finish AsyncLock.inLock
                         agent suspended resuming trace lock photos state
                         stateCopy AsyncLock.running AsyncLock.queue snd fst]
                 in (step l w) in
      let y := eval cbn in x in
      change (step l w) with y; cbv beta iota
  end.

Ltac reduce_run :=
  match goal with
  | |- context [run (?l :: ?ls) ?w] =>
      let x := eval cbv [exec clearPhotos addPhoto answer answer_locked
                         answer_locked_resume answer_finally addPhoto_resume
                         addPhoto_loop start_body notify clear_suspended
                         set_lock set_photos set_state set_stateCopy
                         set_resuming modify gets emit suspend bind ret step run
                         AsyncLock.start AsyncLock.finish AsyncLock.inLock
                         agent suspended resuming trace lock photos state
                         stateCopy AsyncLock.running AsyncLock.queue snd fst]
                 in (run (l :: ls) w) in
      let y := eval cbn in x in
      change (run (l :: ls) w) with y; cbv beta iota
  end.

Ltac project :=
  cbn [agent lock photos state stateCopy suspended resuming trace
       AsyncLock.finish AsyncLock.queue AsyncLock.running].

Ltac project_in H :=
  cbn [agent lock photos state stateCopy suspended resuming trace
       AsyncLock.finish AsyncLock.queue AsyncLock.running] in H.

Ltac tidy_lists :=
  rewrite ?map_app, ?concat_app, ?app_nil_r, <- ?app_assoc; cbn;
  rewrite ?app_nil_r.

(** A transition that drops nothing moves the photos along but keeps
    their order; [addPhoto] puts its photos at the end. *)
Lemma step_pipeline (l : Label) (w w1 : World) :
  single_flight w = true ->
  step l w = Some w1 ->
  drops l = false ->
  pipeline w1 = pipeline w ++ added [l].
Proof.
  rewrite single_flight_spec.
  destruct w as [[[busy q] ps st sc] susp res tr].
  unfold pipeline; cbn.
  intros [_ Hb] Hs Hd; subst busy.
  destruct l; cbn in Hs, Hd; try discriminate.
  - injection Hs as <-. reduce_agent. now tidy_lists.
  - injection Hs as <-. reduce_agent.
    destruct (loading st); cbn; now tidy_lists.
  - unfold AsyncLock.start in Hs; cbn in Hs.
    destruct susp; [discriminate|]; cbn in Hs.
    destruct q as [|b q]; [discriminate|].
    injection Hs as <-.
    destruct b as [[|p rest]|question]; reduce_agent; now tidy_lists.
  - destruct susp as [[p rest last|question]|]; try discriminate.
    injection Hs as <-.
    destruct r as [d|]; [|discriminate].
    destruct rest as [|p1 rest]; reduce_agent; [destruct d|]; cbn; now tidy_lists.
  - destruct susp as [[p rest last|question]|]; try discriminate.
    injection Hs as <-.
    destruct r as [a|]; reduce_agent; now tidy_lists.
  - destruct res as [|n]; [discriminate|].
    injection Hs as <-. reduce_agent. now tidy_lists.
Qed.


Lemma run_pipeline (ls : list Label) (w w1 : World) :
  single_flight w = true ->
  existsb drops ls = false ->
  run ls w = Some w1 ->
  pipeline w1 = pipeline w ++ added ls.
Proof.
  revert w; induction ls as [|l ls IH]; intros w Hsf Hd Hr; simpl in Hr, Hd.
  - injection Hr as <-. simpl. now rewrite app_nil_r.
  - apply orb_false_elim in Hd as [Hd1 Hd2].
    destruct (step l w) as [w2|] eqn:Es; [|discriminate].
    rewrite (IH w2); [| |assumption|assumption].
    + rewrite (step_pipeline l w w2) by assumption.
      rewrite <- app_assoc. f_equal.
      destruct l; simpl; rewrite ?app_nil_r; reflexivity.
    + eapply step_single_flight; eassumption.
Qed.

Lemma quiescent_pipeline (w : World) :
  quiescent w = true -> pipeline w = map photo (photos (agent w)).
Proof.
  destruct w as [[[busy q] ps st sc] susp res tr].
  unfold quiescent, pipeline; cbn.
  destruct busy; [discriminate|].
  destruct q; [|discriminate].
  destruct susp; [discriminate|].
  intros _. cbn. now rewrite app_nil_r.
Qed.

(** X11.  As long as no description is rejected and [clearPhotos] is
    not called, the photos given to [addPhoto] are accumulated in the
    order of the calls and, within a call, of its array, whatever calls
    of [answer] and whatever suspensions come in between: none is lost,
    doubled or moved.  When nothing is in progress any more, [#photos]
    holds exactly these photos. *)
Theorem photos_accumulate_in_call_order (ls : list Label) (w w1 : World) :
  single_flight w = true ->
  existsb drops ls = false ->
  run ls w = Some w1 ->
  pipeline w1 = pipeline w ++ added ls /\
  (quiescent w1 = true ->
   map photo (photos (agent w1)) = pipeline w ++ added ls).
Proof.
  intros Hsf Hd Hr.
  pose proof (run_pipeline ls w w1 Hsf Hd Hr) as Hp.
  split; [exact Hp|].
  intros Hq. rewrite <- Hp. symmetry. now apply quiescent_pipeline.
Qed.

Lemma photos_accumulate_in_call_order_witness :
  let ls :=
    [CallAddPhoto [["001"%byte]; ["002"%byte]];
     CallAnswer "what animal?" true;
     CallAddPhoto [["003"%byte]];
     LockGrant;
     ImageDescriptionSettles (Some "one"%string);
     ImageDescriptionSettles (Some "two"%string);
     LockGrant; LlamaFindSettles None; AnswerResumes;
     LockGrant;
     ImageDescriptionSettles (Some "three"%string)] in
  pipeline (after ls) = pipeline initial ++ added ls /\
  (quiescent (after ls) = true ->
   map photo (photos (agent (after ls))) = pipeline initial ++ added ls).
Proof.
  apply (photos_accumulate_in_call_order
           [CallAddPhoto [["001"%byte]; ["002"%byte]];
            CallAnswer "what animal?"%string true;
            CallAddPhoto [["003"%byte]];
            LockGrant;
            ImageDescriptionSettles (Some "one"%string);
            ImageDescriptionSettles (Some "two"%string);
            LockGrant; LlamaFindSettles None; AnswerResumes;
            LockGrant;
            ImageDescriptionSettles (Some "three"%string)]
           initial).
  - reflexivity.
  - reflexivity.
  - vm_compute; reflexivity.
Defined.

(** X12.  [clearPhotos] drops the photos accumulated so far and nothing
    else: the photos of the [addPhoto] call that is running and of those
    that are queued are still accumulated afterwards, so that once
    nothing is in progress [#photos] holds them again, followed by the
    photos added since. *)
Theorem clearPhotos_keeps_the_backlog (ls : list Label) (w w1 : World) :
  single_flight w = true ->
  existsb drops ls = false ->
  run (CallClearPhotos :: ls) w = Some w1 ->
  pipeline w1 = backlog w ++ added ls /\
  (quiescent w1 = true ->
   map photo (photos (agent w1)) = backlog w ++ added ls).
Proof.
  intros Hsf Hd Hr.
  cbn [run] in Hr.
  destruct (step CallClearPhotos w) as [w0|] eqn:Es; [|discriminate].
  assert (single_flight w0 = true) as Hsf0
    by (eapply step_single_flight; eassumption).
  assert (pipeline w0 = backlog w) as Hp0.
  { destruct w as [[[busy q] ps st sc] susp res tr].
    injection Es as <-. unfold pipeline, backlog. reduce_agent. reflexivity. }
  pose proof (run_pipeline ls w0 w1 Hsf0 Hd Hr) as Hp.
  rewrite Hp0 in Hp. split; [exact Hp|].
  intros Hq. rewrite <- Hp. symmetry. now apply quiescent_pipeline.
Qed.

Lemma clearPhotos_keeps_the_backlog_witness :
  let w := after [CallAddPhoto [["001"%byte]; ["002"%byte]]; LockGrant;
                  ImageDescriptionSettles (Some "one"%string)] in
  let w1 := after [CallAddPhoto [["001"%byte]; ["002"%byte]]; LockGrant;
                   ImageDescriptionSettles (Some "one"%string);
                   CallClearPhotos;
                   ImageDescriptionSettles (Some "two"%string)] in
  pipeline w1 = backlog w ++ added [ImageDescriptionSettles (Some "two"%string)] /\
  (quiescent w1 = true ->
   map photo (photos (agent w1)) =
   backlog w ++ added [ImageDescriptionSettles (Some "two"%string)]).
Proof.
  apply (clearPhotos_keeps_the_backlog
           [ImageDescriptionSettles (Some "two"%string)]
           (after [CallAddPhoto [["001"%byte]; ["002"%byte]]; LockGrant;
                   ImageDescriptionSettles (Some "one"%string)])).
  - vm_compute; reflexivity.
  - reflexivity.
  - vm_compute; reflexivity.
Defined.


(** The body of [addPhoto], suspended at a photo, runs to its end: it
    appends an entry per description delivered, and publishes the last
    description only when none was rejected and it is not empty. *)
Lemma addPhoto_body_runs (describe : bytes -> option string)
  (rest : list bytes) (p : bytes) (last : option string) (w : World) :
  suspended w = Some (AwaitImageDescription p rest last) ->
  exists w1,
    run (settle_photos describe (p :: rest)) w = Some w1 /\
    lock (agent w1) = AsyncLock.finish (lock (agent w)) /\
    photos (agent w1) = photos (agent w) ++ described describe (p :: rest) /\
    state (agent w1) =
      (if publishes describe (p :: rest)
       then set_lastDescription (last_description describe (p :: rest))
                                (state (agent w))
       else state (agent w)) /\
    stateCopy (agent w1) =
      (if publishes describe (p :: rest) then state (agent w1)
       else stateCopy (agent w)) /\
    suspended w1 = None /\
    resuming w1 = resuming w /\
    trace w1 =
      trace w ++ map ImageDescription (tl (attempted describe (p :: rest)))
      ++ (if all_described describe (p :: rest)
          then (if publishes describe (p :: rest)
                then [Notify (state (agent w1))] else [])
          else [AddPhotoRejected]).
Proof.
  revert p last w; induction rest as [|p1 rest IH]; intros p last w Hs;
    destruct w as [[[busy q] ps st sc] susp res tr]; cbn in Hs; subst susp.
  - unfold publishes.
    cbn [settle_photos described attempted all_described last_description
         forallb tl map].
    destruct (describe p) as [d|] eqn:Ed; cbn [is_some andb];
      cbn [run]; reduce_step.
    + destruct d as [|c d]; cbn [truthy];
        (eexists; split; [reflexivity|]); project; cbn [app];
        rewrite ?app_nil_r; repeat split.
    + (eexists; split; [reflexivity|]); project; cbn [app];
        rewrite ?app_nil_r; repeat split.
  - unfold publishes.
    change (described describe (p :: p1 :: rest))
      with (match describe p with
            | Some d0 => mkPhoto p d0 :: described describe (p1 :: rest)
            | None => [] end).
    change (attempted describe (p :: p1 :: rest))
      with (match describe p with
            | Some _ => p :: attempted describe (p1 :: rest)
            | None => [p] end).
    change (all_described describe (p :: p1 :: rest))
      with (is_some (describe p) && all_described describe (p1 :: rest)).
    change (last_description describe (p :: p1 :: rest))
      with (last_description describe (p1 :: rest)).
    change (settle_photos describe (p :: p1 :: rest))
      with (match describe p with
            | Some d => ImageDescriptionSettles (Some d)
                        :: settle_photos describe (p1 :: rest)
            | None => [ImageDescriptionSettles None] end).
    destruct (describe p) as [d|] eqn:Ed; cbn [is_some andb tl];
      cbn [run]; reduce_step.
    + match goal with |- context [run _ ?w0] =>
        destruct (IH p1 (Some d) w0 eq_refl)
          as (w1 & Hr & Hl & Hp & Hst & Hsc & Hsu & Hre & Htr) end.
      exists w1. split; [exact Hr|].
      unfold publishes in *. project. project_in Hl. project_in Hp.
      project_in Hst. project_in Hsc. project_in Hre. project_in Htr.
      rewrite Hl, Hp, Hsu, Hre, Htr, Hsc, Hst.
      repeat split.
      * now rewrite <- app_assoc.
      * rewrite <- app_assoc.
        change (attempted describe (p1 :: rest))
          with (match describe p1 with
                | Some _ => p1 :: attempted describe rest
                | None => [p1] end).
        destruct (describe p1); reflexivity.
    + (eexists; split; [reflexivity|]); project; cbn [app map];
        rewrite ?app_nil_r; repeat split.
Qed.


Lemma attempted_head (describe : bytes -> option string) (p : bytes) (rest : list bytes) :
  attempted describe (p :: rest) = p :: tl (attempted describe (p :: rest)).
Proof. cbn [attempted]. destruct (describe p); reflexivity. Qed.

(** X13.  With nothing else in progress, [addPhoto(photos)] asks for the
    description of each photo in turn until one is rejected; it appends
    one entry per description delivered, in order, and keeps them even
    when a later one is rejected, in which case the call rejects.  It
    updates [lastDescription] and publishes, once, only when no
    description was rejected and the last one is not the empty string;
    otherwise state and published snapshot stay as they were.  In every
    case the lock is free again at the end. *)
Theorem addPhoto_appends_described_prefix
  (describe : bytes -> option string) (ps : list bytes) (w : World) :
  quiescent w = true ->
  exists w1,
    run (CallAddPhoto ps :: LockGrant :: settle_photos describe ps) w = Some w1 /\
    photos (agent w1) = photos (agent w) ++ described describe ps /\
    state (agent w1) =
      (if publishes describe ps
       then set_lastDescription (last_description describe ps) (state (agent w))
       else state (agent w)) /\
    stateCopy (agent w1) =
      (if publishes describe ps then state (agent w1) else stateCopy (agent w)) /\
    quiescent w1 = true /\
    trace w1 =
      trace w ++ map ImageDescription (attempted describe ps)
      ++ (if all_described describe ps
          then (if publishes describe ps then [Notify (state (agent w1))] else [])
          else [AddPhotoRejected]).
Proof.
  intros Hq.
  destruct w as [[[busy q] ps0 st sc] susp res tr].
  unfold quiescent in Hq at 1; cbn in Hq.
  destruct busy; [discriminate|].
  destruct q; [|discriminate].
  destruct susp; [discriminate|].
  destruct res; [|discriminate]. clear Hq. project.
  destruct ps as [|p rest].
  - cbn [settle_photos]. reduce_run.
    eexists; split; [reflexivity|]. unfold publishes. cbn.
    rewrite ?app_nil_r. repeat split.
  - change (CallAddPhoto (p :: rest) :: LockGrant
              :: settle_photos describe (p :: rest))
      with ([CallAddPhoto (p :: rest); LockGrant]
              ++ settle_photos describe (p :: rest)).
    rewrite run_app. reduce_run.
    match goal with |- context [run _ ?w0] =>
      destruct (addPhoto_body_runs describe rest p None w0 eq_refl)
        as (w1 & Hr & Hl & Hp & Hst & Hsc & Hsu & Hre & Htr) end.
    exists w1. split; [exact Hr|].
    project_in Hl. project_in Hp. project_in Hst. project_in Hsc.
    project_in Hre. project_in Htr.
    rewrite <- app_assoc in Htr. cbn [app] in Htr.
    rewrite (attempted_head describe p rest). cbn [map app].
    repeat split; try assumption.
    unfold quiescent. rewrite Hl, Hsu, Hre. reflexivity.
Qed.

Lemma addPhoto_appends_described_prefix_witness :
  let describe := fun p : bytes =>
    match p with
    | ["001"%byte] => Some "a cat"%string
    | _ => None
    end in
  let ps := [["001"%byte]; ["002"%byte]; ["001"%byte]] in
  exists w1,
    run (CallAddPhoto ps :: LockGrant :: settle_photos describe ps) initial = Some w1 /\
    photos (agent w1) = photos (agent initial) ++ described describe ps /\
    state (agent w1) =
      (if publishes describe ps
       then set_lastDescription (last_description describe ps) (state (agent initial))
       else state (agent initial)) /\
    stateCopy (agent w1) =
      (if publishes describe ps then state (agent w1)
       else stateCopy (agent initial)) /\
    quiescent w1 = true /\
    trace w1 =
      trace initial ++ map ImageDescription (attempted describe ps)
      ++ (if all_described describe ps
          then (if publishes describe ps then [Notify (state (agent w1))] else [])
          else [AddPhotoRejected]).
Proof.
  apply (addPhoto_appends_described_prefix
           (fun p : bytes =>
              match p with
              | ["001"%byte] => Some "a cat"%string
              | _ => None
              end)
           [["001"%byte]; ["002"%byte]; ["001"%byte]] initial).
  reflexivity.
Defined.

(** X14.  With nothing else in progress, a call of [answer] that finds
    [loading] false publishes twice: first the state with [loading]
    true and the previous answer still in it, then, after [llamaFind],
    the state with [loading] false and the new answer, which is the
    text returned, or the fixed apology when [llamaFind] threw.  The
    photos and [lastDescription] are not touched and nothing stays
    queued. *)
Theorem answer_publishes_answer_or_fallback
  (w : World) (question : string) (audio : bool) (r : option string) :
  quiescent w = true ->
  loading (state (agent w)) = false ->
  let final :=
    mk (lastDescription (state (agent w)))
       (Some (match r with Some a => a | None => fallback end))
       false in
  exists w1,
    run [CallAnswer question audio; LockGrant; LlamaFindSettles r; AnswerResumes] w
    = Some w1 /\
    agent w1 = mkAgent (lock (agent w)) (photos (agent w)) final final /\
    quiescent w1 = true /\
    trace w1 =
      trace w ++ [StartAudio audio;
                  Notify (set_loading true (state (agent w)));
                  LlamaFind question (context (photos (agent w)));
                  Notify final].
Proof.
  intros Hq Hl final; subst final.
  destruct w as [[[busy q] ps st sc] susp res tr].
  unfold quiescent in Hq at 1; cbn in Hq, Hl.
  destruct busy; [discriminate|].
  destruct q; [|discriminate].
  destruct susp; [discriminate|].
  destruct res; [|discriminate]. clear Hq. project.
  destruct r as [a|]; reduce_run; rewrite Hl; cbn;
    (eexists; split; [reflexivity|]); cbn;
    unfold context; rewrite combine_context_from; cbn;
    rewrite <- !app_assoc; repeat split.
Qed.

Lemma answer_publishes_answer_or_fallback_witness :
  let final := mk (lastDescription (state (agent one_photo))) (Some fallback) false in
  exists w1,
    run [CallAnswer "what animal?" true; LockGrant; LlamaFindSettles None;
         AnswerResumes] one_photo = Some w1 /\
    agent w1 = mkAgent (lock (agent one_photo)) (photos (agent one_photo))
                       final final /\
    quiescent w1 = true /\
    trace w1 =
      trace one_photo ++ [StartAudio true;
                          Notify (set_loading true (state (agent one_photo)));
                          LlamaFind "what animal?" (context (photos (agent one_photo)));
                          Notify final].
Proof.
  apply (answer_publishes_answer_or_fallback one_photo "what animal?"%string true None).
  - vm_compute; reflexivity.
  - vm_compute; reflexivity.
Defined.


Lemma step_snapshot (l : Label) (w w1 : World) :
  snapshot_in_sync w -> step l w = Some w1 -> snapshot_in_sync w1.
Proof.
  destruct w as [[[busy q] ps st sc] susp res tr].
  unfold snapshot_in_sync; cbn.
  intros (Hd & Hl & Hs) Hstep.
  destruct l; cbn in Hstep.
  - injection Hstep as <-. reduce_agent. repeat split.
  - injection Hstep as <-. reduce_agent. repeat split; assumption.
  - injection Hstep as <-. reduce_agent.
    destruct (loading st) eqn:El; cbn;
      repeat split; assumption || reflexivity || congruence.
  - unfold AsyncLock.start in Hstep; cbn in Hstep.
    destruct busy; [discriminate|].
    destruct q as [|b q]; [discriminate|].
    injection Hstep as <-.
    destruct b as [[|p rest]|question]; reduce_agent; repeat split; assumption.
  - destruct susp as [[p rest last|question]|]; try discriminate.
    injection Hstep as <-.
    destruct r as [d|]; [destruct rest as [|p1 rest]|]; reduce_agent;
      try (repeat split; assumption).
    destruct d; cbn; repeat split; assumption || reflexivity.
  - destruct susp as [[p rest last|question]|]; try discriminate.
    injection Hstep as <-.
    destruct r as [a|]; reduce_agent; (repeat split; [assumption..|discriminate]).
  - destruct res as [|n]; [discriminate|].
    injection Hstep as <-. reduce_agent. repeat split.
Qed.

(** X15.  Whatever calls were made on a new agent and however they
    interleave, the snapshot given to the listeners agrees with the
    state in [lastDescription] and [loading]; it is the whole state
    unless a call of [answer] has stored its answer and not yet run its
    [finally]. *)
Theorem published_snapshot_in_sync (ls : list Label) (w : World) :
  run ls initial = Some w -> snapshot_in_sync w.
Proof.
  assert (forall ks w0 w1, snapshot_in_sync w0 -> run ks w0 = Some w1 ->
                           snapshot_in_sync w1) as H.
  { induction ks as [|l ks IH]; intros w0 w1 H0 Hr; simpl in Hr.
    - now injection Hr as <-.
    - destruct (step l w0) as [w2|] eqn:Es; [|discriminate].
      eapply IH; [eapply step_snapshot; eassumption | assumption]. }
  apply H. repeat split.
Qed.

Lemma published_snapshot_in_sync_witness :
  snapshot_in_sync
    (after [CallAnswer "what animal?" true; LockGrant;
            LlamaFindSettles (Some "a cat"%string)]).
Proof.
  apply (published_snapshot_in_sync
           [CallAnswer "what animal?"%string true; LockGrant;
            LlamaFindSettles (Some "a cat"%string)]).
  vm_compute; reflexivity.
Defined.

(** X16.  The context of a longer photo list starts with the context of
    the shorter one: a photo keeps its index and its text when more
    photos are accumulated after it, and the new ones are numbered from
    the old length on. *)
Theorem context_extends (ps qs : list PhotoEntry) :
  combine (ps ++ qs) 0 EmptyString =
  (combine ps 0 EmptyString ++ context_from (List.length ps) qs)%string.
Proof.
  assert (forall l i acc, combine (l ++ qs) i acc =
            combine qs (i + List.length l) (combine l i acc)) as H.
  { induction l as [|p l IH]; intros i acc; cbn [app combine List.length].
    - now rewrite Nat.add_0_r.
    - rewrite IH. f_equal. lia. }
  rewrite H. cbn [Nat.add]. apply combine_context_from.
Qed.

End PhotoFlow.

(* ================================================================== *)
(** ** The component around the agent *)

Section ComponentFlow.

Import AgentProps AgentFlow Component.

Lemma allowed_adds_nothing (l : Agent.Label) :
  allowed l = true -> added [l] = [].
Proof. destruct l; simpl; intros H; try reflexivity; discriminate. Qed.

Lemma sync_run_agent (d : Device) :
  (processed d < List.length (photos d))%nat ->
  Agent.step (Agent.CallAddPhoto (skipn (processed d) (photos d))) (agent d)
  = Some (agent (sync_run d)) /\
  processed (sync_run d) = List.length (photos d) /\
  photos (sync_run d) = photos d.
Proof.
  intros H. unfold sync_run.
  destruct (Nat.ltb_spec (processed d) (List.length (photos d))); [|lia].
  repeat split.
Qed.

Lemma sync_run_idle (d : Device) :
  (List.length (photos d) <= processed d)%nat -> sync_run d = d.
Proof.
  intros H. unfold sync_run.
  destruct (Nat.ltb_spec (processed d) (List.length (photos d))); [lia|].
  reflexivity.
Qed.

(** What the agent was given is the first [processed] photos. *)
Lemma step_handed (i : Input) (d d1 : Device) :
  single_flight (agent d) = true ->
  (processed d <= List.length (photos d))%nat ->
  pipeline (agent d) = firstn (processed d) (photos d) ->
  lossy i = false ->
  step i d = Some d1 ->
  single_flight (agent d1) = true /\
  (processed d1 <= List.length (photos d1))%nat /\
  pipeline (agent d1) = firstn (processed d1) (photos d1).
Proof.
  intros Hsf Hle Hp Hl Hs.
  destruct i; cbn in Hs, Hl; try discriminate.
  - injection Hs as <-. cbn. repeat split; [assumption| |].
    + rewrite length_app; cbn; lia.
    + rewrite firstn_app.
      replace (processed d - List.length (photos d))%nat with O by lia.
      cbn. now rewrite app_nil_r.
  - injection Hs as <-.
    destruct (Nat.ltb_spec (processed d) (List.length (photos d))) as [Hlt|Hge].
    + destruct (sync_run_agent d Hlt) as (Hstep & Hpr & Hph).
      rewrite Hpr, Hph. repeat split.
      * eapply step_single_flight; eassumption.
      * lia.
      * rewrite (step_pipeline _ _ _ Hsf Hstep eq_refl), Hp. cbn [added].
        rewrite app_nil_r, firstn_skipn, firstn_all. reflexivity.
    + rewrite sync_run_idle by lia. repeat split; assumption.
  - destruct (allowed l) eqn:Ea; [|discriminate].
    destruct (Agent.step l (agent d)) as [w|] eqn:Es; [|discriminate].
    injection Hs as <-. cbn. repeat split; [|assumption|].
    + eapply step_single_flight; eassumption.
    + rewrite (step_pipeline _ _ _ Hsf Es Hl), Hp.
      rewrite allowed_adds_nothing by assumption. now rewrite app_nil_r.
Qed.

(** X17.  In a component that was mounted, as long as Clear Photos is
    not pressed and no description is rejected, the agent has been given
    exactly the first [processed] photos of the list, each once and in
    the order in which they arrived; one more run of the function given
    to [InvalidateSync] gives it all of them; and when nothing is in
    progress in the agent, these are the photos it has accumulated. *)
Theorem photos_reach_agent_once_in_order (inputs : list Input) (d : Device) :
  existsb lossy inputs = false ->
  run inputs mounted = Some d ->
  pipeline (agent d) = firstn (processed d) (photos d) /\
  pipeline (agent (sync_run d)) = photos d /\
  (quiescent (agent d) = true ->
   map Agent.photo (Agent.photos (Agent.agent (agent d)))
   = firstn (processed d) (photos d)).
Proof.
  assert (forall ks d0 d1,
             single_flight (agent d0) = true ->
             (processed d0 <= List.length (photos d0))%nat ->
             pipeline (agent d0) = firstn (processed d0) (photos d0) ->
             existsb lossy ks = false ->
             run ks d0 = Some d1 ->
             single_flight (agent d1) = true /\
             (processed d1 <= List.length (photos d1))%nat /\
             pipeline (agent d1) = firstn (processed d1) (photos d1)) as H.
  { induction ks as [|i ks IH]; intros d0 d1 Hsf Hle Hp Hl Hr; simpl in Hr, Hl.
    - injection Hr as <-. repeat split; assumption.
    - apply orb_false_elim in Hl as [Hl1 Hl2].
      destruct (step i d0) as [d2|] eqn:Es; [|discriminate].
      destruct (step_handed i d0 d2 Hsf Hle Hp Hl1 Es) as (Hsf2 & Hle2 & Hp2).
      exact (IH d2 d1 Hsf2 Hle2 Hp2 Hl2 Hr). }
  intros Hl Hr.
  destruct (H inputs mounted d eq_refl (Nat.le_refl _) eq_refl Hl Hr)
    as (Hsf & Hle & Hp).
  split; [exact Hp|]. split.
  - destruct (step_handed SyncRuns d (sync_run d) Hsf Hle Hp eq_refl eq_refl)
      as (_ & _ & Hp1).
    rewrite Hp1.
    destruct (Nat.ltb_spec (processed d) (List.length (photos d))) as [Hlt|Hge].
    + destruct (sync_run_agent d Hlt) as (_ & -> & ->). apply firstn_all.
    + rewrite sync_run_idle by lia.
      replace (processed d) with (List.length (photos d)) by lia.
      apply firstn_all.
  - intros Hq. rewrite <- Hp. symmetry. now apply quiescent_pipeline.
Qed.


Lemma photos_reach_agent_once_in_order_witness :
  exists d,
    run [PhotoRotated ["001"%byte]; PhotoRotated ["002"%byte]; SyncRuns;
         AgentMoves Agent.LockGrant;
         AgentMoves (Agent.ImageDescriptionSettles (Some "one"%string));
         PhotoRotated ["003"%byte]] mounted = Some d /\
    pipeline (agent d) = firstn (processed d) (photos d) /\
    pipeline (agent (sync_run d)) = photos d /\
    (quiescent (agent d) = true ->
     map Agent.photo (Agent.photos (Agent.agent (agent d)))
     = firstn (processed d) (photos d)).
Proof.
  eexists. split; [vm_compute; reflexivity|].
  apply (photos_reach_agent_once_in_order
           [PhotoRotated ["001"%byte]; PhotoRotated ["002"%byte]; SyncRuns;
            AgentMoves Agent.LockGrant;
            AgentMoves (Agent.ImageDescriptionSettles (Some "one"%string));
            PhotoRotated ["003"%byte]]).
  - reflexivity.
  - vm_compute; reflexivity.
Defined.

(** X18.  Clear Photos empties the list but leaves the counter of the
    function given to [InvalidateSync] where it was: as long as no more
    photos have arrived since than the counter says, that function
    gives nothing to the agent, so these photos never reach it; the
    agent only goes on with what it had in progress. *)
Theorem photos_after_clear_are_skipped (inputs : list Input) (d d1 : Device) :
  single_flight (agent d) = true ->
  existsb lossy inputs = false ->
  (arrivals inputs <= processed d)%nat ->
  run (ClearPressed :: inputs) d = Some d1 ->
  processed d1 = processed d /\
  List.length (photos d1) = arrivals inputs /\
  pipeline (agent d1) = backlog (agent d).
Proof.
  assert (forall ks d0 d2,
             single_flight (agent d0) = true ->
             existsb lossy ks = false ->
             (List.length (photos d0) + arrivals ks <= processed d0)%nat ->
             run ks d0 = Some d2 ->
             processed d2 = processed d0 /\
             List.length (photos d2) = (List.length (photos d0) + arrivals ks)%nat /\
             pipeline (agent d2) = pipeline (agent d0)) as H.
  { induction ks as [|i ks IH]; intros d0 d2 Hsf Hl Hle Hr; simpl in Hr, Hl.
    - injection Hr as <-. unfold arrivals; cbn. repeat split; lia.
    - apply orb_false_elim in Hl as [Hl1 Hl2].
      destruct (step i d0) as [d3|] eqn:Es; [|discriminate].
      destruct i; cbn in Es, Hl1; try discriminate.
      + injection Es as <-.
        unfold arrivals in Hle |- *; cbn [filter List.length] in Hle |- *.
        assert (List.length (photos (photo_rotated rotated d0))
                = S (List.length (photos d0))) as Hlen.
        { unfold photo_rotated; cbn [photos].
          rewrite length_app; cbn [List.length]; lia. }
        destruct (IH (photo_rotated rotated d0) d2 Hsf Hl2) as (H1 & H2 & H3);
          [unfold arrivals; rewrite Hlen; cbn [processed photo_rotated]; lia
          | exact Hr |].
        unfold arrivals in H2. rewrite Hlen in H2.
        repeat split; [exact H1 | lia | exact H3].
      + injection Es as <-.
        unfold arrivals in Hle |- *; cbn [filter List.length] in Hle |- *.
        rewrite sync_run_idle in Hr by lia.
        exact (IH d0 d2 Hsf Hl2 Hle Hr).
      + destruct (allowed l) eqn:Ea; [|discriminate].
        destruct (Agent.step l (agent d0)) as [w|] eqn:Ew; [|discriminate].
        injection Es as <-.
        unfold arrivals in Hle |- *; cbn [filter List.length] in Hle |- *.
        destruct (IH (mkDevice (photos d0) (processed d0) w) d2
                     (step_single_flight _ _ _ Hsf Ew) Hl2 Hle Hr)
          as (H1 & H2 & H3).
        cbn [photos processed agent] in H1, H2, H3.
        repeat split; [assumption | assumption |].
        rewrite H3, (step_pipeline _ _ _ Hsf Ew Hl1).
        rewrite allowed_adds_nothing by assumption. now rewrite app_nil_r. }
  intros Hsf Hl Hle Hr.
  cbn [run step] in Hr.
  assert (Agent.step Agent.CallClearPhotos (agent d)
          = Some (agent (handleClearPhotos d))) as Hc by reflexivity.
  destruct (H inputs (handleClearPhotos d) d1
              (step_single_flight _ _ _ Hsf Hc) Hl Hle Hr) as (H1 & H2 & H3).
  cbn in H1, H2. repeat split; [assumption | assumption |].
  rewrite H3.
  destruct d as [ph k [[[busy q] ps st sc] susp res tr]].
  reflexivity.
Qed.

Lemma photos_after_clear_are_skipped_witness :
  exists d d1,
    run [PhotoRotated ["001"%byte]; PhotoRotated ["002"%byte]; SyncRuns;
         AgentMoves Agent.LockGrant;
         AgentMoves (Agent.ImageDescriptionSettles (Some "one"%string));
         AgentMoves (Agent.ImageDescriptionSettles (Some "two"%string))]
        mounted = Some d /\
    run [ClearPressed; PhotoRotated ["003"%byte]; SyncRuns;
         PhotoRotated ["004"%byte]; SyncRuns] d = Some d1 /\
    processed d1 = processed d /\
    List.length (photos d1)
    = arrivals [PhotoRotated ["003"%byte]; SyncRuns;
                PhotoRotated ["004"%byte]; SyncRuns] /\
    pipeline (agent d1) = backlog (agent d).
Proof.
  eexists. eexists.
  split; [vm_compute; reflexivity|].
  split; [vm_compute; reflexivity|].
  apply (photos_after_clear_are_skipped
           [PhotoRotated ["003"%byte]; SyncRuns;
            PhotoRotated ["004"%byte]; SyncRuns]).
  - vm_compute; reflexivity.
  - reflexivity.
  - vm_compute; lia.
  - vm_compute; reflexivity.
Defined.

End ComponentFlow.

(* ================================================================== *)
(** ** The photos a question is answered with *)

Section AnswerContext.

Import AgentState Agent AgentProps AgentFlow.








End AnswerContext.
